(** * govault: field-level encryption engine and reflective field walker

    A shallow embedding of the core of [github.com/muhammadluth/govault]:

    - the key registry ([New], [newKey], [GetKeyIDs]);
    - the crypto engine ([Encrypt], [Decrypt], [GetKeyIDFromEncryptedData]);
    - the two reflective walkers ([BunInsertQuery.encryptModel] on the write
      path and [GovaultDB.DecryptRecursive] on the read path);
    - the first bun adapter's read path ([BunSelectQuery.decryptValue]), the
      raw query's [EncryptValue] and the destination loop of [Scan];
    - the pool-based [Encryptor] ([NewWithKeys], [New] and
      [loadKeysFromEnv], [Encrypt], [Decrypt], [ReEncrypt]).

    Go strings are byte strings and are modelled by [string]; [[]byte] is
    [list byte].  The Go standard library pieces the engine calls
    ([strings.SplitN], [strings.Contains], [base64.StdEncoding],
    [crypto/rand.Read], [cipher.AEAD]) are modelled next to the code that
    uses them.  AES-256-GCM itself is kept abstract: the development is
    parameterised by the function building an AEAD from 32 key bytes. *)

From Stdlib Require Import ZArith Lia List Ascii String DecimalString.
From Stdlib.Strings Require Import Byte.
From stdpp Require Import base option list strings gmap sorting.
Import ListNotations.

Local Open Scope string_scope.
Set Warnings "-register-all".

(** ** Outcomes of fallible Go code *)

(** The errors the engine builds with [fmt.Errorf], one constructor per
    message; [%w]-wrapped errors keep the wrapped error as an argument. *)
Inductive error : Type :=
  | ErrNoKeys
      (* at least one encryption key is required *)
  | ErrNoDefaultKey
      (* default key ID is required *)
  | ErrDefaultKeyNotFound (id : string)
      (* default key ID '%s' not found in keys *)
  | ErrInitKey (id : string) (e : error)
      (* failed to initialize key '%s': %w *)
  | ErrKeyLength (n : nat)
      (* key must be 32 bytes for AES-256, got %d bytes *)
  | ErrEncryptKeyNotFound (id : string)
      (* encryption key '%s' not found *)
  | ErrNonce
      (* failed to generate nonce: %w *)
  | ErrInvalidFormat
      (* invalid encrypted data format *)
  | ErrKeyNotFound (id : string) (available : list string)
      (* encryption key '%s' not found. Available: %v *)
  | ErrDecodeNonce
      (* failed to decode nonce: %w *)
  | ErrDecodeCiphertext
      (* failed to decode ciphertext: %w *)
  | ErrDecrypt
      (* failed to decrypt: %w *)
  | ErrEncryptField (name : string) (e : error)
      (* failed to encrypt field %s: %w *)
  | ErrDecryptField (name : string) (e : error).
      (* failed to decrypt field %s: %w *)

(** A Go call either returns a value, returns an error, or panics. *)
Inductive result (A : Type) : Type :=
  | Ok (a : A)
  | Err (e : error)
  | Panic (msg : string).
Arguments Ok {A} a.
Arguments Err {A} e.
Arguments Panic {A} msg.

Definition bind {A B : Type} (r : result A) (k : A -> result B) : result B :=
  match r with
  | Ok a => k a
  | Err e => Err e
  | Panic m => Panic m
  end.

Notation "'let*' x ':=' r 'in' k" := (bind r (fun x => k))
  (at level 10, x name, r at level 100, k at level 200).

(** ** Strings *)

Module Strings.

Fixpoint sliceFrom (n : nat) (s : string) : string :=
  match n, s with
  | 0, _ => s
  | S n', String _ s' => sliceFrom n' s'
  | S _, EmptyString => EmptyString
  end.

(** [strings.Index]: position of the first occurrence of [sub] in [s];
    Go's [-1] is [None]. *)
Fixpoint Index (s sub : string) : option nat :=
  if String.prefix sub s then Some 0
  else match s with
       | EmptyString => None
       | String _ s' => S <$> Index s' sub
       end.

(** [strings.Contains(s, sub)] is [Index(s, sub) >= 0]. *)
Definition Contains (s sub : string) : bool :=
  match Index s sub with Some _ => true | None => false end.

(** The loop of [strings.genSplit]: [n] is the number of cuts still
    allowed; [a[i] = s[:m]; s = s[m+len(sep):]] at each cut, and the
    unsplit remainder last. *)
Fixpoint genSplit (s sub : string) (n : nat) : list string :=
  match n with
  | 0 => [s]
  | S n' =>
      match Index s sub with
      | None => [s]
      | Some m =>
          substring 0 m s
          :: genSplit (sliceFrom (m + String.length sub) s) sub n'
      end
  end.

(** [strings.SplitN(s, sub, n)] for a non-empty separator [sub]: [n = 0]
    gives no substrings, [n < 0] all of them, [n > 0] at most [n] with the
    unsplit remainder last.  (The empty-separator branch, which explodes
    the string into UTF-8 sequences, is not used by the engine.) *)
Definition SplitN (s sub : string) (n : Z) : list string :=
  if (n =? 0)%Z then []
  else if (n <? 0)%Z then genSplit s sub (String.length s)
  else genSplit s sub (Z.to_nat n - 1).

(** Number of occurrences of a character. *)
Fixpoint count (c : ascii) (s : string) : nat :=
  match s with
  | EmptyString => 0
  | String c' s' => (if Ascii.eqb c' c then 1 else 0) + count c s'
  end.

(** [strings.HasPrefix] and [strings.TrimPrefix]. *)
Definition HasPrefix (s prefix : string) : bool := String.prefix prefix s.

Definition TrimPrefix (s prefix : string) : string :=
  if HasPrefix s prefix then sliceFrom (String.length prefix) s else s.

End Strings.

(** ** Standard base64 ([encoding/base64], [StdEncoding]) *)

Module Base64.

Definition encodeStd : string :=
  "ABCDEFGHIJKLMNOPQRSTUVWXYZabcdefghijklmnopqrstuvwxyz0123456789+/".

Definition padChar : ascii := "="%char.

Definition byteZ (b : byte) : Z := Z.of_N (Byte.to_N b).

(** Go's conversion [byte(x)]: the low eight bits. *)
Definition toByte (z : Z) : byte :=
  match Byte.of_N (Z.to_N (Z.land z 255)) with
  | Some b => b
  | None => x00
  end.

(** [enc.encode[i]]. *)
Definition encode (i : Z) : ascii :=
  match String.get (Z.to_nat i) encodeStd with
  | Some c => c
  | None => padChar
  end.

Fixpoint indexOf (c : ascii) (s : string) (i : Z) : option Z :=
  match s with
  | EmptyString => None
  | String c' s' => if Ascii.eqb c' c then Some i else indexOf c s' (i + 1)
  end.

(** [enc.decodeMap[c]]; the table's [0xFF] entries are [None]. *)
Definition decodeMap (c : ascii) : option Z := indexOf c encodeStd 0.

Definition sextet (val : Z) (shift : Z) : ascii :=
  encode (Z.land (Z.shiftr val shift) 63).

(** [Encoding.Encode]: full three-byte groups, then the padded remainder. *)
Fixpoint EncodeToString (src : list byte) : string :=
  match src with
  | [] => ""
  | [a] =>
      let val := Z.shiftl (byteZ a) 16 in
      String (sextet val 18) (String (sextet val 12)
        (String padChar (String padChar "")))
  | [a; b] =>
      let val := Z.lor (Z.shiftl (byteZ a) 16) (Z.shiftl (byteZ b) 8) in
      String (sextet val 18) (String (sextet val 12)
        (String (sextet val 6) (String padChar "")))
  | a :: b :: c :: rest =>
      let val := Z.lor (Z.lor (Z.shiftl (byteZ a) 16) (Z.shiftl (byteZ b) 8))
                       (byteZ c) in
      String (sextet val 18) (String (sextet val 12)
        (String (sextet val 6) (String (sextet val 0) (EncodeToString rest))))
  end.

Definition isNewline (c : ascii) : bool :=
  Ascii.eqb c "010"%char || Ascii.eqb c "013"%char.

(** The decoder skips carriage returns and line feeds wherever they occur. *)
Fixpoint stripNewlines (s : string) : string :=
  match s with
  | EmptyString => EmptyString
  | String c s' =>
      if isNewline c then stripNewlines s' else String c (stripNewlines s')
  end.

Definition quantum (d0 d1 d2 d3 : Z) : Z :=
  Z.lor (Z.lor (Z.lor (Z.shiftl d0 18) (Z.shiftl d1 12)) (Z.shiftl d2 6)) d3.

(** [Encoding.decodeQuantum], repeated: four characters give three bytes;
    padding is accepted in the last quantum only, and anything after it,
    an incomplete quantum or a character outside the alphabet is a
    [CorruptInputError] ([None]). *)
Fixpoint decodeQuanta (s : string) : option (list byte) :=
  match s with
  | EmptyString => Some []
  | String c0 (String c1 (String c2 (String c3 rest))) =>
      match decodeMap c0, decodeMap c1 with
      | Some d0, Some d1 =>
          if Ascii.eqb c2 padChar then
            if Ascii.eqb c3 padChar then
              match rest with
              | EmptyString => Some [toByte (Z.shiftr (quantum d0 d1 0 0) 16)]
              | _ => None
              end
            else None
          else
            match decodeMap c2 with
            | Some d2 =>
                if Ascii.eqb c3 padChar then
                  match rest with
                  | EmptyString =>
                      let val := quantum d0 d1 d2 0 in
                      Some [toByte (Z.shiftr val 16); toByte (Z.shiftr val 8)]
                  | _ => None
                  end
                else
                  match decodeMap c3 with
                  | Some d3 =>
                      let val := quantum d0 d1 d2 d3 in
                      match decodeQuanta rest with
                      | Some bs =>
                          Some (toByte (Z.shiftr val 16)
                                :: toByte (Z.shiftr val 8)
                                :: toByte val :: bs)
                      | None => None
                      end
                  | None => None
                  end
            | None => None
            end
      | _, _ => None
      end
  | _ => None
  end.

Definition DecodeString (s : string) : option (list byte) :=
  decodeQuanta (stripNewlines s).

(** Helpers for stating facts about the alphabet. *)

Fixpoint allChars (p : ascii -> bool) (s : string) : bool :=
  match s with
  | EmptyString => true
  | String c s' => p c && allChars p s'
  end.

(** Neither a line break nor the token separator. *)
Definition tokenChar (c : ascii) : bool :=
  negb (isNewline c) && negb (Ascii.eqb c "|").

Definition alphabet_check (n : nat) : bool :=
  let i := Z.of_nat n in
  match decodeMap (encode i) with
  | Some j => (j =? i)%Z
  | None => false
  end
  && negb (Ascii.eqb (encode i) padChar)
  && negb (isNewline (encode i))
  && negb (Ascii.eqb (encode i) "|").

End Base64.

(** ** AEAD ciphers and entropy *)

(** The [cipher.AEAD] interface, with no associated data: [Seal(nil, nonce,
    plaintext, nil)] and [Open(nil, nonce, ciphertext, nil)].  [rawSeal] and
    [rawOpen] are the cipher proper, on nonces of the right size. *)
Record AEAD : Type := {
  NonceSize : nat;
  rawSeal : list byte -> list byte -> list byte;
  rawOpen : list byte -> list byte -> option (list byte)
}.

(** Both methods panic on a nonce whose length is not [NonceSize()]. *)
Definition Seal (c : AEAD) (nonce plaintext : list byte) : result (list byte) :=
  if decide (length nonce = NonceSize c) then Ok (rawSeal c nonce plaintext)
  else Panic "crypto/cipher: incorrect nonce length given to GCM".

(** [Open] returns [None] for Go's authentication error. *)
Definition Open (c : AEAD) (nonce ciphertext : list byte)
  : result (option (list byte)) :=
  if decide (length nonce = NonceSize c) then Ok (rawOpen c nonce ciphertext)
  else Panic "crypto/cipher: incorrect nonce length given to GCM".

(** What an AEAD promises: opening what was sealed, under the same nonce,
    gives the plaintext back. *)
Definition AEAD_correct (c : AEAD) : Prop :=
  forall nonce plaintext,
    length nonce = NonceSize c ->
    rawOpen c nonce (rawSeal c nonce plaintext) = Some plaintext.

(** The entropy [crypto/rand] draws from, as the bytes still to come.
    [rand.Read(b)] fills all of [b] or fails. *)
Definition entropy : Type := list byte.

Definition rand_Read (n : nat) (src : entropy) : option (list byte) * entropy :=
  if decide (n <= length src) then (Some (take n src), List.skipn n src)
  else (None, src).

(** ** Key registry *)

Record Key : Type := {
  ID : string;
  Value : list byte;
  cipher : AEAD
}.

(** [Config]: the fields the registry reads ([AdapterName], [DebugMode] and
    the database handles play no part in the engine). *)
Record Config : Type := {
  Keys : gmap string (list byte);
  DefaultKeyID : string
}.

(** [GovaultDB], without its [DB] handle. *)
Record GovaultDB : Type := {
  keys : gmap string Key;
  defaultKey : string
}.

(** ** Values seen through [reflect] *)

(** A struct field's static description: its name, the value of its
    [encrypted] tag ([""] when the tag is absent) and whether it is
    exported. *)
Record StructField : Type := {
  Name : string;
  Tag_encrypted : string;
  exported : bool
}.

(** Values by [reflect.Kind].  [VOther] stands for every kind the walkers
    never look into (integers, booleans, arrays, maps, interfaces, ...).
    A pointer owns its target: the model covers acyclic, unaliased data. *)
Inductive value : Type :=
  | VString (s : string)
  | VOther (n : Z)
  | VPtr (target : option value)
  | VSlice (elems : list value)
  | VStruct (fields : list (StructField * value)).

(** A loop over the elements of a slice or the fields of a struct that
    writes in place and returns at the first failing step: the elements
    already written stay written, the rest is not visited. *)
Definition forEach {A : Type} (step : A -> A * result unit)
  : list A -> list A * result unit :=
  fix go (l : list A) : list A * result unit :=
    match l with
    | [] => ([], Ok tt)
    | x :: l' =>
        match step x with
        | (x', Ok _) => let '(l'', r) := go l' in (x' :: l'', r)
        | (x', r) => (x' :: l', r)
        end
    end.

Section Engine.

(** [cipher.NewGCM(aes.NewCipher(keyBytes))] for a 32-byte key. *)
Variable NewGCM : list byte -> AEAD.

(** [newKey]: after the length check neither [aes.NewCipher] nor
    [cipher.NewGCM] can fail. *)
Definition newKey (keyID : string) (keyBytes : list byte) : result Key :=
  if decide (length keyBytes = 32) then
    Ok {| ID := keyID; Value := keyBytes; cipher := NewGCM keyBytes |}
  else Err (ErrKeyLength (length keyBytes)).

(** The initialisation loop of [New] over the configured keys, in the order
    the map iteration yields them. *)
Fixpoint initKeys (entries : list (string * list byte))
    (acc : gmap string Key) : result (gmap string Key) :=
  match entries with
  | [] => Ok acc
  | (keyID, keyBytes) :: rest =>
      match newKey keyID keyBytes with
      | Ok key => initKeys rest (<[keyID := key]> acc)
      | Err e => Err (ErrInitKey keyID e)
      | Panic m => Panic m
      end
  end.

Definition New (config : Config) : result GovaultDB :=
  if decide (size (Keys config) = 0) then Err ErrNoKeys
  else if decide (DefaultKeyID config = "") then Err ErrNoDefaultKey
  else match Keys config !! DefaultKeyID config with
       | None => Err (ErrDefaultKeyNotFound (DefaultKeyID config))
       | Some _ =>
           let* ks := initKeys (map_to_list (Keys config)) ∅ in
           Ok {| keys := ks; defaultKey := DefaultKeyID config |}
       end.

End Engine.

(** The invariant of a registry built by [New]: every key sits under its own
    identifier, has 32 bytes and carries the cipher made from them, and the
    default key is registered. *)
Definition validKey (NewGCM : list byte -> AEAD) (id : string) (k : Key) : Prop :=
  ID k = id /\ length (Value k) = 32 /\ cipher k = NewGCM (Value k).

Definition registry_ok (NewGCM : list byte -> AEAD) (g : GovaultDB) : Prop :=
  (forall id k, keys g !! id = Some k -> validKey NewGCM id k)
  /\ is_Some (keys g !! defaultKey g).

(** [sort.Strings] orders by bytes. *)
Definition string_le (a b : string) : Prop := String.leb a b = true.

#[local] Instance string_le_dec : RelDecision string_le.
Proof. intros a b. unfold string_le. apply _. Defined.

Definition GetKeyIDs (g : GovaultDB) : list string :=
  merge_sort string_le (fst <$> map_to_list (keys g)).

Definition GetDefaultKeyID (g : GovaultDB) : string := defaultKey g.

(** [GetKeyIDFromEncryptedData], the same in [GovaultDB], [DB] and
    [Encryptor]. *)
Definition GetKeyIDFromEncryptedData (encryptedData : string) : result string :=
  if decide (encryptedData = "") then Ok ""
  else
    match Strings.SplitN encryptedData "|" 2 with
    | [] => Err ErrInvalidFormat
    | part0 :: _ => Ok part0
    end.

(** The key [Encrypt] resolves: the first variadic argument when there is
    one and it is not empty, the default key otherwise. *)
Definition targetKeyID (g : GovaultDB) (keyID : list string) : string :=
  match keyID with
  | k0 :: _ => if decide (k0 = "") then defaultKey g else k0
  | [] => defaultKey g
  end.

(** [Encrypt(plaintext, keyID...)].  The entropy is threaded through: only
    a call that reaches [rand.Read] consumes any. *)
Definition Encrypt (g : GovaultDB) (plaintext : string) (keyID : list string)
    (src : entropy) : result string * entropy :=
  if decide (plaintext = "") then (Ok "", src)
  else
    let targetKeyID := targetKeyID g keyID in
    match keys g !! targetKeyID with
    | None => (Err (ErrEncryptKeyNotFound targetKeyID), src)
    | Some key =>
        match rand_Read (NonceSize (cipher key)) src with
        | (None, src') => (Err ErrNonce, src')
        | (Some nonce, src') =>
            (let* ciphertext :=
               Seal (cipher key) nonce (list_byte_of_string plaintext) in
             let nonceB64 := Base64.EncodeToString nonce in
             let ciphertextB64 := Base64.EncodeToString ciphertext in
             Ok (targetKeyID +:+ "|" +:+ nonceB64 +:+ "|" +:+ ciphertextB64),
             src')
        end
    end.

(** The wire format [keyID|base64(nonce)|base64(ciphertext)], for stating
    what [Encrypt] returns. *)
Definition wireToken (keyID : string) (nonce ciphertext : list byte) : string :=
  keyID +:+ "|" +:+ Base64.EncodeToString nonce
        +:+ "|" +:+ Base64.EncodeToString ciphertext.

(** [Decrypt(encryptedData)]. *)
Definition Decrypt (g : GovaultDB) (encryptedData : string) : result string :=
  if decide (encryptedData = "") then Ok ""
  else
    match Strings.SplitN encryptedData "|" 3 with
    | [keyID; nonceB64; ciphertextB64] =>
        match keys g !! keyID with
        | None => Err (ErrKeyNotFound keyID (GetKeyIDs g))
        | Some key =>
            match Base64.DecodeString nonceB64 with
            | None => Err ErrDecodeNonce
            | Some nonce =>
                match Base64.DecodeString ciphertextB64 with
                | None => Err ErrDecodeCiphertext
                | Some ciphertext =>
                    let* opened := Open (cipher key) nonce ciphertext in
                    match opened with
                    | None => Err ErrDecrypt
                    | Some plaintext => Ok (string_of_list_byte plaintext)
                    end
                end
            end
        end
    | _ => Err ErrInvalidFormat
    end.

(** ** The walkers *)

(** The loop of [encryptModel], which also threads the entropy. *)
Definition forEachWith {A S : Type} (step : A -> S -> A * result unit * S)
  : list A -> S -> list A * result unit * S :=
  fix go (l : list A) (st : S) : list A * result unit * S :=
    match l with
    | [] => ([], Ok tt, st)
    | x :: l' =>
        match step x st with
        | (x', Ok _, st') => let '(l'', r, st'') := go l' st' in (x' :: l'', r, st'')
        | (x', r, st') => (x' :: l', r, st')
        end
    end.

(** One iteration of the field loop of [encryptModel].  [field.CanSet()]
    holds when the struct is addressable and the field exported. *)
Definition encryptField (g : GovaultDB) (q_keyID : string) (addressable : bool)
    (f : StructField * value) (src : entropy)
  : (StructField * value) * result unit * entropy :=
  let '(fieldType, field) := f in
  if negb (addressable && exported fieldType) then (f, Ok tt, src)
  else if decide (Tag_encrypted fieldType = "true") then
    match field with
    | VString plaintext =>
        if decide (plaintext = "") then (f, Ok tt, src)
        else
          let '(r, src') :=
            if decide (q_keyID = "") then Encrypt g plaintext [] src
            else Encrypt g plaintext [q_keyID] src in
          match r with
          | Ok encrypted => ((fieldType, VString encrypted), Ok tt, src')
          | Err e => (f, Err (ErrEncryptField (Name fieldType) e), src')
          | Panic m => (f, Panic m, src')
          end
    | _ => (f, Ok tt, src)
    end
  else (f, Ok tt, src).

(** [BunInsertQuery.encryptModel]; [BunUpdateQuery.encryptModel] is the same
    text.  [model] is the [any] argument, [None] the nil interface.  One
    pointer is dereferenced ([Elem] of a nil pointer is the invalid value,
    which is no struct); anything but a struct returns [nil] at once. *)
Definition encryptModel (g : GovaultDB) (q_keyID : string)
    (model : option value) (src : entropy)
  : option value * result unit * entropy :=
  match model with
  | Some (VPtr (Some (VStruct fields))) =>
      let '(fields', r, src') :=
        forEachWith (encryptField g q_keyID true) fields src in
      (Some (VPtr (Some (VStruct fields'))), r, src')
  | Some (VStruct fields) =>
      let '(fields', r, src') :=
        forEachWith (encryptField g q_keyID false) fields src in
      (Some (VStruct fields'), r, src')
  | _ => (model, Ok tt, src)
  end.

(** The tagged-string branch of the field loop of [DecryptRecursive]: the
    guard, the call of [Decrypt] and [field.SetString]. *)
Definition decryptString (g : GovaultDB) (fieldType : StructField)
    (ciphertext : string) : (StructField * value) * result unit :=
  if negb (bool_decide (ciphertext = "")) && Strings.Contains ciphertext "|" then
    match Decrypt g ciphertext with
    | Ok decrypted => ((fieldType, VString decrypted), Ok tt)
    | Err e =>
        ((fieldType, VString ciphertext), Err (ErrDecryptField (Name fieldType) e))
    | Panic m => ((fieldType, VString ciphertext), Panic m)
    end
  else ((fieldType, VString ciphertext), Ok tt).

(** One iteration of the slice loop of [DecryptRecursive]; [recurse] is the
    recursive call on what a pointer leads to.  Elements of a slice are
    always addressable. *)
Definition decryptElem (recurse : value -> value * result unit) (elem : value)
  : value * result unit :=
  match elem with
  | VPtr (Some target) =>
      let '(target', r) := recurse target in (VPtr (Some target'), r)
  | VStruct _ => recurse elem
  | _ => (elem, Ok tt)
  end.

(** One iteration of the struct loop of [DecryptRecursive].
    [field.CanSet()] holds when the struct is addressable and the field
    exported; a field that can be set can be addressed. *)
Definition decryptField (g : GovaultDB)
    (recurse : value -> value * result unit) (addressable : bool)
    (f : StructField * value) : (StructField * value) * result unit :=
  let '(fieldType, field) := f in
  if negb (addressable && exported fieldType) then (f, Ok tt)
  else if decide (Tag_encrypted fieldType = "true") then
    match field with
    | VString ciphertext => decryptString g fieldType ciphertext
    | _ => (f, Ok tt)
    end
  else
    match field with
    | VStruct _ | VSlice _ =>
        let '(field', r) := recurse field in ((fieldType, field'), r)
    | VPtr (Some target) =>
        let '(target', r) := recurse target in
        ((fieldType, VPtr (Some target')), r)
    | _ => (f, Ok tt)
    end.

(** The body of [DecryptRecursive] once [val] is in hand: the slice loop and
    the struct loop.  Every recursive call of the source goes through a
    pointer ([elem.Interface()], [elem.Addr().Interface()], ...), so the
    value it reaches is addressable. *)
Fixpoint decryptValue (g : GovaultDB) (addressable : bool) (val : value)
    {struct val} : value * result unit :=
  match val with
  | VSlice elems =>
      let '(elems', r) := forEach (decryptElem (decryptValue g true)) elems in
      (VSlice elems', r)
  | VStruct fields =>
      let '(fields', r) :=
        forEach (decryptField g (decryptValue g true) addressable) fields in
      (VStruct fields', r)
  | _ => (val, Ok tt)
  end.

(** [GovaultDB.DecryptRecursive(value)]: [None] is the nil interface. *)
Definition DecryptRecursive (g : GovaultDB) (root : option value)
  : option value * result unit :=
  match root with
  | None => (None, Ok tt)
  | Some (VPtr None) => (root, Ok tt)
  | Some (VPtr (Some target)) =>
      let '(target', r) := decryptValue g true target in
      (Some (VPtr (Some target')), r)
  | Some val =>
      let '(val', r) := decryptValue g false val in
      (Some val', r)
  end.

(** ** [strconv] and [fmt] on integers *)

Module Strconv.

Definition digit (c : ascii) : option Z :=
  let d := (Z.of_N (N_of_ascii c) - 48)%Z in
  if (0 <=? d)%Z && (d <=? 9)%Z then Some d else None.

Fixpoint digits (s : string) (n : Z) : option Z :=
  match s with
  | EmptyString => Some n
  | String c s' =>
      match digit c with
      | Some d => digits s' (n * 10 + d)%Z
      | None => None
      end
  end.

(** [strconv.Atoi] on a 64-bit platform: an optional sign, at least one
    decimal digit, nothing else, and a value that fits an [int]; [None]
    stands for both of its errors (syntax and range). *)
Definition Atoi (s : string) : option Z :=
  match s with
  | EmptyString => None
  | String c rest =>
      let '(neg, body) :=
        if Ascii.eqb c "-" then (true, rest)
        else if Ascii.eqb c "+" then (false, rest)
        else (false, s) in
      match body with
      | EmptyString => None
      | _ =>
          match digits body 0 with
          | Some n =>
              let v := if neg : bool then (- n)%Z else n in
              if (- 2 ^ 63 <=? v)%Z && (v <=? 2 ^ 63 - 1)%Z then Some v
              else None
          | None => None
          end
      end
  end.

(** [fmt.Sprintf("%d", n)]. *)
Definition Itoa (n : Z) : string := NilZero.string_of_int (Z.to_int n).

End Strconv.

(** ** The first bun adapter's read path and raw-value helper *)

(** [BunSelectQuery.decryptValue] and [decryptModel]; the raw query's
    [decryptScanResult] and [decryptStruct] are the same text.  They do not
    follow untagged fields into nested values. *)
Module BunSelectQuery.

(** One iteration of the field loop of [decryptModel]. *)
Definition decryptModelField (g : GovaultDB) (addressable : bool)
    (f : StructField * value) : (StructField * value) * result unit :=
  let '(fieldType, field) := f in
  if negb (addressable && exported fieldType) then (f, Ok tt)
  else if decide (Tag_encrypted fieldType = "true") then
    match field with
    | VString ciphertext => decryptString g fieldType ciphertext
    | _ => (f, Ok tt)
    end
  else (f, Ok tt).

(** The body of [decryptModel] once [val] is in hand. *)
Definition decryptStruct (g : GovaultDB) (addressable : bool) (val : value)
  : value * result unit :=
  match val with
  | VStruct fields =>
      let '(fields', r) := forEach (decryptModelField g addressable) fields in
      (VStruct fields', r)
  | _ => (val, Ok tt)
  end.

(** [decryptModel(model)]: one pointer is dereferenced ([Elem] of a nil
    pointer is the invalid value, which is no struct). *)
Definition decryptModel (g : GovaultDB) (model : option value)
  : option value * result unit :=
  match model with
  | None => (None, Ok tt)
  | Some (VPtr None) => (model, Ok tt)
  | Some (VPtr (Some target)) =>
      let '(target', r) := decryptStruct g true target in
      (Some (VPtr (Some target')), r)
  | Some val =>
      let '(val', r) := decryptStruct g false val in
      (Some val', r)
  end.

(** One iteration of the slice loop of [decryptValue]: a pointer element
    goes to [decryptModel] as it is, a struct element through its
    address. *)
Definition decryptElem (g : GovaultDB) (elem : value) : value * result unit :=
  match elem with
  | VPtr (Some target) =>
      let '(target', r) := decryptStruct g true target in
      (VPtr (Some target'), r)
  | VStruct _ => decryptStruct g true elem
  | _ => (elem, Ok tt)
  end.

(** [decryptValue(value)]: anything but a pointer returns [nil] at once. *)
Definition decryptValue (g : GovaultDB) (root : option value)
  : option value * result unit :=
  match root with
  | Some (VPtr (Some (VSlice elems))) =>
      let '(elems', r) := forEach (decryptElem g) elems in
      (Some (VPtr (Some (VSlice elems'))), r)
  | Some (VPtr (Some (VStruct _))) => decryptModel g root
  | _ => (root, Ok tt)
  end.

End BunSelectQuery.

Module BunRawQuery.

(** [BunRawQuery.EncryptValue(plaintext)] for a query whose key is
    [q_keyID]. *)
Definition EncryptValue (g : GovaultDB) (q_keyID : string) (plaintext : string)
    (src : entropy) : result string * entropy :=
  if decide (plaintext = "") then (Ok "", src)
  else if decide (q_keyID <> "") then Encrypt g plaintext [q_keyID] src
  else Encrypt g plaintext [] src.

End BunRawQuery.

(** The loop that [Scan], [ScanAndCount], [Exec], [ScanRow] and [ScanRows]
    of the bun adapter run over their destinations once the wrapped query
    has returned without error. *)
Definition decryptDest (g : GovaultDB) (dest : list (option value))
  : list (option value) * result unit :=
  forEach (DecryptRecursive g) dest.

(** ** The [Encryptor] of the pool-based interface *)

Module Encryptor.

(** The errors of this interface, one constructor per message. *)
Inductive failure : Type :=
  | NoPools
      (* at least one pool is required *)
  | NoKeysProvided
      (* no encryption keys provided *)
  | ActiveKeyNotFound (id : string)
      (* active key ID %s not found in provided keys *)
  | InitKey (id : string) (e : failure)
      (* failed to initialize key %s: %w *)
  | KeyLength
      (* encryption key must be 32 bytes for AES-256 *)
  | EnvKeyLength (num : Z) (n : nat)
      (* ENCRYPTION_KEY_%d must be 32 bytes, got %d bytes *)
  | EnvInitKey (num : Z) (e : failure)
      (* failed to initialize ENCRYPTION_KEY_%d: %w *)
  | NoEnvKeys
      (* no ENCRYPTION_KEY_* found in environment *)
  | NoKeysInEnv
      (* no encryption keys found in environment variables (...) *)
  | NonceFailure
      (* failed to generate nonce: %w *)
  | InvalidFormat
      (* invalid encrypted data format, expected: key_id|nonce|encrypted_data *)
  | KeyNotFound (id : string) (available : list string)
      (* encryption key with ID '%s' not found. Available keys: %v *)
  | DecodeNonce
      (* failed to decode nonce: %w *)
  | DecodeCiphertext
      (* failed to decode ciphertext: %w *)
  | DecryptFailed (id : string).
      (* failed to decrypt with key %s: %w *)

Inductive outcome (A : Type) : Type :=
  | Done (a : A)
  | Failed (e : failure)
  | Panicked (msg : string).
Arguments Done {A} a.
Arguments Failed {A} e.
Arguments Panicked {A} msg.

(** A [Pool] is known by its name only. *)
Definition Pool : Type := string.

Record EncryptionKey : Type := {
  ID : string;
  Key : list byte;
  cipher : AEAD
}.

Record Encryptor : Type := {
  pools : list Pool;
  keys : gmap string EncryptionKey;
  activeKeyID : string;
  activeKey : option EncryptionKey
}.

Section Construction.

(** [cipher.NewGCM(aes.NewCipher(key))] for a 32-byte key. *)
Variable NewGCM : list byte -> AEAD.

Definition newEncryptionKey (keyID : string) (encryptionKey : list byte)
  : outcome EncryptionKey :=
  if decide (length encryptionKey = 32) then
    Done {| ID := keyID; Key := encryptionKey; cipher := NewGCM encryptionKey |}
  else Failed KeyLength.

(** The initialisation loop of [NewWithKeys]. *)
Fixpoint initKeys (entries : list (string * list byte))
    (acc : gmap string EncryptionKey) : outcome (gmap string EncryptionKey) :=
  match entries with
  | [] => Done acc
  | (keyID, keyBytes) :: rest =>
      match newEncryptionKey keyID keyBytes with
      | Done key => initKeys rest (<[keyID := key]> acc)
      | Failed e => Failed (InitKey keyID e)
      | Panicked m => Panicked m
      end
  end.

Definition NewWithKeys (keysMap : gmap string (list byte)) (activeKeyID : string)
    (pools : list Pool) : outcome Encryptor :=
  if decide (length pools = 0) then Failed NoPools
  else if decide (size keysMap = 0) then Failed NoKeysProvided
  else match keysMap !! activeKeyID with
       | None => Failed (ActiveKeyNotFound activeKeyID)
       | Some _ =>
           match initKeys (map_to_list keysMap) ∅ with
           | Done ks =>
               Done {| pools := pools; keys := ks; activeKeyID := activeKeyID;
                       activeKey := ks !! activeKeyID |}
           | Failed e => Failed e
           | Panicked m => Panicked m
           end
       end.

(** The loop of [loadKeysFromEnv] over [os.Environ()], entries of the form
    ["NAME=value"]. *)
Fixpoint loadKeys (environ : list string) (keys : gmap string EncryptionKey)
    (keyNumbers : list Z) : outcome (gmap string EncryptionKey * list Z) :=
  match environ with
  | [] => Done (keys, keyNumbers)
  | env :: rest =>
      if Strings.HasPrefix env "ENCRYPTION_KEY_" then
        match Strings.SplitN env "=" 2 with
        | [envKey; envValue] =>
            let numStr := Strings.TrimPrefix envKey "ENCRYPTION_KEY_" in
            match Strconv.Atoi numStr with
            | None => loadKeys rest keys keyNumbers
            | Some num =>
                let keyBytes := list_byte_of_string envValue in
                if decide (length keyBytes <> 32) then
                  Failed (EnvKeyLength num (length keyBytes))
                else
                  let keyID := Strconv.Itoa num in
                  match newEncryptionKey keyID keyBytes with
                  | Done key =>
                      loadKeys rest (<[keyID := key]> keys)
                        (keyNumbers ++ [num])%list
                  | Failed e => Failed (EnvInitKey num e)
                  | Panicked m => Panicked m
                  end
            end
        | _ => loadKeys rest keys keyNumbers
        end
      else loadKeys rest keys keyNumbers
  end.

(** [loadKeysFromEnv]: the key with the largest number becomes the active
    one. *)
Definition loadKeysFromEnv (environ : list string)
  : outcome (gmap string EncryptionKey * string) :=
  match loadKeys environ ∅ [] with
  | Done (keys, keyNumbers) =>
      if decide (size keys = 0) then Failed NoEnvKeys
      else
        match last (merge_sort Z.le keyNumbers) with
        | Some activeKeyNum => Done (keys, Strconv.Itoa activeKeyNum)
        | None => Panicked "index out of range [-1]"
        end
  | Failed e => Failed e
  | Panicked m => Panicked m
  end.

(** [New(pools...)], reading the keys from the environment. *)
Definition New (pools : list Pool) (environ : list string) : outcome Encryptor :=
  if decide (length pools = 0) then Failed NoPools
  else
    match loadKeysFromEnv environ with
    | Done (ks, activeKeyID) =>
        if decide (size ks = 0) then Failed NoKeysInEnv
        else Done {| pools := pools; keys := ks; activeKeyID := activeKeyID;
                     activeKey := ks !! activeKeyID |}
    | Failed e => Failed e
    | Panicked m => Panicked m
    end.

End Construction.

Definition GetActiveKeyID (e : Encryptor) : string := activeKeyID e.

Definition GetKeyIDs (e : Encryptor) : list string :=
  merge_sort string_le (fst <$> map_to_list (keys e)).

(** [Encryptor.Encrypt(plaintext)]: always under the active key, which is
    used through its pointer. *)
Definition Encrypt (e : Encryptor) (plaintext : string) (src : entropy)
  : outcome string * entropy :=
  if decide (plaintext = "") then (Done "", src)
  else
    match activeKey e with
    | None => (Panicked "invalid memory address or nil pointer dereference", src)
    | Some key =>
        match rand_Read (NonceSize (cipher key)) src with
        | (None, src') => (Failed NonceFailure, src')
        | (Some nonce, src') =>
            (if decide (length nonce = NonceSize (cipher key)) then
               let ciphertext :=
                 rawSeal (cipher key) nonce (list_byte_of_string plaintext) in
               let nonceB64 := Base64.EncodeToString nonce in
               let ciphertextB64 := Base64.EncodeToString ciphertext in
               Done (activeKeyID e +:+ "|" +:+ nonceB64 +:+ "|" +:+ ciphertextB64)
             else Panicked "crypto/cipher: incorrect nonce length given to GCM",
             src')
        end
    end.

(** [Encryptor.Decrypt(encryptedData)]. *)
Definition Decrypt (e : Encryptor) (encryptedData : string) : outcome string :=
  if decide (encryptedData = "") then Done ""
  else
    match Strings.SplitN encryptedData "|" 3 with
    | [keyID; nonceB64; ciphertextB64] =>
        match keys e !! keyID with
        | None => Failed (KeyNotFound keyID (GetKeyIDs e))
        | Some key =>
            match Base64.DecodeString nonceB64 with
            | None => Failed DecodeNonce
            | Some nonce =>
                match Base64.DecodeString ciphertextB64 with
                | None => Failed DecodeCiphertext
                | Some ciphertext =>
                    if decide (length nonce = NonceSize (cipher key)) then
                      match rawOpen (cipher key) nonce ciphertext with
                      | None => Failed (DecryptFailed keyID)
                      | Some plaintext => Done (string_of_list_byte plaintext)
                      end
                    else
                      Panicked "crypto/cipher: incorrect nonce length given to GCM"
                end
            end
        end
    | _ => Failed InvalidFormat
    end.

(** [Encryptor.ReEncrypt(encryptedData)]. *)
Definition ReEncrypt (e : Encryptor) (encryptedData : string) (src : entropy)
  : outcome string * entropy :=
  if decide (encryptedData = "") then (Done "", src)
  else
    match Decrypt e encryptedData with
    | Done plaintext => Encrypt e plaintext src
    | Failed err => (Failed err, src)
    | Panicked m => (Panicked m, src)
    end.

End Encryptor.

(** The invariant of an encryptor built by [NewWithKeys] or [New]: every
    key sits under its own identifier, has 32 bytes and carries the cipher
    made from them, and the active key is the key registered under the
    active identifier. *)
Definition encryptor_ok (NewGCM : list byte -> AEAD) (e : Encryptor.Encryptor)
  : Prop :=
  (forall id k,
      Encryptor.keys e !! id = Some k ->
      Encryptor.ID k = id /\ length (Encryptor.Key k) = 32
      /\ Encryptor.cipher k = NewGCM (Encryptor.Key k))
  /\ Encryptor.activeKey e = Encryptor.keys e !! Encryptor.activeKeyID e
  /\ is_Some (Encryptor.activeKey e).

(** ** Predicates for stating what the walkers touch *)

(** A value the walkers never look into. *)
Definition scalar (v : value) : bool :=
  match v with
  | VString _ | VOther _ | VPtr None => true
  | _ => false
  end.

(** A struct without nested data under its untagged fields. *)
Definition flatFields (fields : list (StructField * value)) : Prop :=
  Forall (fun f : StructField * value =>
            Tag_encrypted f.1 = "true" \/ scalar f.2 = true) fields.

(** The value with every exported tagged string field blanked, at any
    depth: what is left is what no pass may change. *)
Fixpoint blank (v : value) : value :=
  match v with
  | VPtr (Some target) => VPtr (Some (blank target))
  | VSlice elems => VSlice (map blank elems)
  | VStruct fields =>
      VStruct
        (map (fun f : StructField * value =>
                let '(fieldType, field) := f in
                match field with
                | VString _ =>
                    if exported fieldType
                       && bool_decide (Tag_encrypted fieldType = "true")
                    then (fieldType, VString "")
                    else f
                | _ => (fieldType, blank field)
                end) fields)
  | _ => v
  end.

(** What [blank] does to one field. *)
Definition blankField (f : StructField * value) : StructField * value :=
  match f.2 with
  | VString _ =>
      if exported f.1 && bool_decide (Tag_encrypted f.1 = "true")
      then (f.1, VString "")
      else f
  | _ => (f.1, blank f.2)
  end.

(** No tagged string field, at any depth, contains the separator. *)
Fixpoint tokenFree (v : value) : bool :=
  match v with
  | VPtr (Some target) => tokenFree target
  | VSlice elems => forallb tokenFree elems
  | VStruct fields =>
      forallb (fun f : StructField * value =>
                 let '(fieldType, field) := f in
                 match field with
                 | VString s =>
                     negb (bool_decide (Tag_encrypted fieldType = "true"))
                     || negb (Strings.Contains s "|")
                 | _ => tokenFree field
                 end) fields
  | _ => true
  end.

(** The number and the value of an environment entry that
    [loadKeysFromEnv] takes for a key: [ENCRYPTION_KEY_<number>=<value>]. *)
Definition envKey (env : string) : option (Z * string) :=
  if Strings.HasPrefix env "ENCRYPTION_KEY_" then
    match Strings.SplitN env "=" 2 with
    | [envKey; envValue] =>
        match Strconv.Atoi (Strings.TrimPrefix envKey "ENCRYPTION_KEY_") with
        | Some num => Some (num, envValue)
        | None => None
        end
    | _ => None
    end
  else None.

(** The environment has an entry giving the key number [n] the value [v]. *)
Definition accepted (environ : list string) (n : Z) (v : string) : Prop :=
  exists env, env ∈ environ /\ envKey env = Some (n, v).

(** What the first adapter's read path and [DecryptRecursive] treat alike:
    a struct without nested data under its untagged fields, a pointer to
    one, or anything neither of them enters. *)
Definition flatTarget (v : value) : Prop :=
  match v with
  | VStruct fields => flatFields fields
  | VSlice _ => False
  | _ => True
  end.

Definition flatElem (elem : value) : Prop :=
  match elem with
  | VPtr (Some target) => flatTarget target
  | VStruct fields => flatFields fields
  | _ => True
  end.

(** ** A stand-in cipher and sample data for concrete runs *)

Module Sample.

#[local] Instance byte_eq_dec : EqDecision byte.
Proof.
  intros a b. destruct (Byte.eqb a b) eqn:E.
  - left. apply Byte.byte_dec_bl, E.
  - right. intros ->. rewrite Byte.byte_dec_lb in E; [discriminate | reflexivity].
Defined.

(** Not AES-GCM: a cipher small enough to run, which prefixes the
    plaintext with a tag made of the first key byte and of the nonce. *)
Definition toyGCM (keyBytes : list byte) : AEAD :=
  {| NonceSize := 12;
     rawSeal := fun nonce plaintext =>
       ((firstn 1 keyBytes ++ nonce) ++ plaintext)%list;
     rawOpen := fun nonce ciphertext =>
       let tag := (firstn 1 keyBytes ++ nonce)%list in
       if decide (firstn (length tag) ciphertext = tag)
       then Some (List.skipn (length tag) ciphertext)
       else None |}.

Definition K1 : list byte := repeat x01 32.
Definition K2 : list byte := repeat x02 32.

Definition config12 : Config :=
  {| Keys := <["1" := K1]> (<["2" := K2]> ∅); DefaultKeyID := "2" |}.

Definition key (id : string) (kb : list byte) : Key :=
  {| ID := id; Value := kb; cipher := toyGCM kb |}.

Definition g12 : GovaultDB :=
  {| keys := <["1" := key "1" K1]> (<["2" := key "2" K2]> ∅);
     defaultKey := "2" |}.


(** A registry that has retired key 1. *)
Definition g2 : GovaultDB :=
  {| keys := <["2" := key "2" K2]> ∅; defaultKey := "2" |}.

(** A registry whose only key has an identifier with a separator in it. *)
Definition configBar : Config :=
  {| Keys := <["a|b" := K1]> ∅; DefaultKeyID := "a|b" |}.

Definition gBar : GovaultDB :=
  {| keys := <["a|b" := key "a|b" K1]> ∅; defaultKey := "a|b" |}.

Definition nonce0 : list byte := repeat x00 12.
Definition noise : entropy :=
  (repeat x00 12 ++ repeat x07 12 ++ repeat x09 12)%list.

Definition tagged (name : string) : StructField :=
  {| Name := name; Tag_encrypted := "true"; exported := true |}.
Definition plain (name : string) : StructField :=
  {| Name := name; Tag_encrypted := ""; exported := true |}.

(** [TestUser] of the test suites, without its embedded [bun.BaseModel]. *)
Definition TestUser (id : Z) (name email phone address : string) : value :=
  VStruct [ (plain "ID", VOther id); (plain "Name", VString name);
            (tagged "Email", VString email); (tagged "Phone", VString phone);
            (plain "Address", VString address) ].

(** ["a@x.com"] sealed under key 1 and under key 2 with [nonce0]. *)
Definition token1 : string := "1|AAAAAAAAAAAAAAAA|AQAAAAAAAAAAAAAAAGFAeC5jb20=".
Definition token2 : string := "2|AAAAAAAAAAAAAAAA|AgAAAAAAAAAAAAAAAGFAeC5jb20=".

Definition ptrTo (v : value) : option value := Some (VPtr (Some v)).

(** Thirty-two characters, for keys given as text. *)
Definition keyText (c : string) : string :=
  c +:+ "1234567890123456789012345678901".

(** An environment with three keys, a name that is no number and a name
    without value. *)
Definition environ : list string :=
  ["PATH=/bin"; "ENCRYPTION_KEY_1=" +:+ keyText "a";
   "ENCRYPTION_KEY_10=" +:+ keyText "b"; "ENCRYPTION_KEY_x=zz";
   "ENCRYPTION_KEY_2=" +:+ keyText "c"; "ENCRYPTION_KEY_3"].

Definition keysMap12 : gmap string (list byte) :=
  <["1" := K1]> (<["2" := K2]> ∅).

Definition ekey (id : string) (kb : list byte) : Encryptor.EncryptionKey :=
  {| Encryptor.ID := id; Encryptor.Key := kb; Encryptor.cipher := toyGCM kb |}.

(** The encryptor [NewWithKeys] builds from keys 1 and 2 with 2 active. *)
Definition encryptor12 : Encryptor.Encryptor :=
  {| Encryptor.pools := ["bun"];
     Encryptor.keys := <["1" := ekey "1" K1]> (<["2" := ekey "2" K2]> ∅);
     Encryptor.activeKeyID := "2";
     Encryptor.activeKey := Some (ekey "2" K2) |}.

End Sample.

(** * Properties *)

(** ** Strings *)

Section StringFacts.

Import Strings.

Lemma append_nil_l (s : string) : "" +:+ s = s.
Proof. reflexivity. Qed.

Lemma append_cons (c : ascii) (s t : string) :
  String c s +:+ t = String c (s +:+ t).
Proof. reflexivity. Qed.

Lemma length_append (s t : string) :
  String.length (s +:+ t) = String.length s + String.length t.
Proof. induction s as [|c s IH]; [reflexivity|]. rewrite append_cons. cbn. lia. Qed.

Lemma Index_bar_cons (c : ascii) (s : string) :
  Index (String c s) "|" =
    if Ascii.eqb c "|" then Some 0 else S <$> Index s "|".
Proof.
  cbn [Index String.prefix].
  destruct (ascii_dec "|" c) as [<- | Hne].
  - destruct s; reflexivity.
  - destruct (Ascii.eqb_spec c "|") as [-> | _]; [congruence | reflexivity].
Qed.

Lemma Index_bar_nil : Index "" "|" = None.
Proof. reflexivity. Qed.

Lemma count_append (c : ascii) (s t : string) :
  count c (s +:+ t) = count c s + count c t.
Proof.
  induction s as [|c' s IH]; [reflexivity|].
  rewrite append_cons. cbn [count]. lia.
Qed.

Lemma Index_None_count (s : string) :
  Index s "|" = None <-> count "|" s = 0.
Proof.
  induction s as [|c s IH]; [done|].
  rewrite Index_bar_cons. cbn [count].
  destruct (Ascii.eqb c "|"); [split; [discriminate | lia]|].
  rewrite <- IH. destruct (Index s "|"); cbn; split; congruence.
Qed.

Lemma Contains_count (s : string) :
  Contains s "|" = false <-> count "|" s = 0.
Proof.
  rewrite <- Index_None_count. unfold Contains.
  destruct (Index s "|"); split; congruence.
Qed.

(** Where [Index] finds the first separator, the string is cut in two. *)
Lemma Index_Some_cut (s : string) (m : nat) :
  Index s "|" = Some m ->
  exists a b, s = a +:+ "|" +:+ b /\ Index a "|" = None
              /\ String.length a = m
              /\ substring 0 m s = a /\ sliceFrom (m + 1) s = b.
Proof.
  revert m. induction s as [|c s IH]; intros m; [discriminate|].
  rewrite Index_bar_cons. destruct (Ascii.eqb_spec c "|") as [-> | Hne].
  - intros [= <-]. exists "", s. by repeat split.
  - destruct (Index s "|") as [m'|] eqn:E; [|discriminate].
    cbn. intros [= <-]. destruct (IH m' eq_refl) as (a & b & -> & Ha & Hl & Hs & Hd).
    exists (String c a), b. rewrite Index_bar_cons.
    destruct (Ascii.eqb_spec c "|") as [-> | _]; [done|].
    rewrite Ha. cbn [String.length substring sliceFrom]. rewrite Hs, Hl.
    repeat split. exact Hd.
Qed.

Lemma Index_cut (a b : string) :
  Index a "|" = None -> Index (a +:+ "|" +:+ b) "|" = Some (String.length a).
Proof.
  induction a as [|c a IH]; intros Ha.
  - rewrite append_nil_l, append_cons, Index_bar_cons. reflexivity.
  - rewrite Index_bar_cons in Ha. rewrite append_cons, Index_bar_cons.
    destruct (Ascii.eqb c "|"); [discriminate|].
    destruct (Index a "|"); [discriminate|]. by rewrite IH.
Qed.

Lemma Index_sep_Some (a b : string) :
  is_Some (Index (a +:+ "|" +:+ b) "|").
Proof.
  induction a as [|c a [m IH]].
  - rewrite append_nil_l, append_cons, Index_bar_cons. by eexists.
  - rewrite append_cons, Index_bar_cons.
    destruct (Ascii.eqb c "|"); [by eexists|]. rewrite IH. by eexists.
Qed.

Lemma substring_append (a b : string) :
  substring 0 (String.length a) (a +:+ b) = a.
Proof.
  induction a as [|c a IH]; [by destruct b|].
  rewrite append_cons. cbn. by rewrite IH.
Qed.

Lemma sliceFrom_append (a b : string) :
  sliceFrom (String.length a) (a +:+ b) = b.
Proof. induction a as [|c a IH]; [by destruct b|]. rewrite append_cons. apply IH. Qed.

Lemma sliceFrom_cut (a b : string) :
  sliceFrom (String.length a + 1) (a +:+ "|" +:+ b) = b.
Proof.
  induction a as [|c a IH]; [reflexivity|]. rewrite append_cons. apply IH.
Qed.

(** One cut of [genSplit] at the first separator. *)
Lemma genSplit_cut (a b : string) (n : nat) :
  Index a "|" = None ->
  genSplit (a +:+ "|" +:+ b) "|" (S n) = a :: genSplit b "|" n.
Proof.
  intros Ha. cbn [genSplit]. rewrite Index_cut by done.
  rewrite substring_append. cbn [String.length]. by rewrite sliceFrom_cut.
Qed.

Lemma genSplit_whole (s : string) (n : nat) :
  Index s "|" = None -> genSplit s "|" n = [s].
Proof. intros Hs. destruct n; [done|]. cbn. by rewrite Hs. Qed.

Lemma genSplit_length (s : string) (n : nat) :
  length (genSplit s "|" n) = S (Nat.min n (count "|" s)).
Proof.
  revert s. induction n as [|n IH]; intros s; [reflexivity|].
  cbn [genSplit]. destruct (Index s "|") as [m|] eqn:E.
  - destruct (Index_Some_cut _ _ E) as (a & b & -> & Ha & _ & _ & Hd).
    cbn [String.length]. rewrite Hd. cbn [length]. rewrite IH.
    rewrite !count_append. apply Index_None_count in Ha. rewrite Ha. cbn. lia.
  - apply Index_None_count in E. rewrite E. cbn. lia.
Qed.

Lemma genSplit_nonempty (s : string) (n : nat) :
  exists a rest, genSplit s "|" n = a :: rest.
Proof.
  destruct n; cbn; [eauto|]. destruct (Index s "|"); eauto.
Qed.

End StringFacts.

(** ** Base64 *)

Section Base64Facts.

Import Base64.
Local Open Scope Z_scope.

(** Bitwise or of two numbers with no bit in common is their sum. *)
Lemma lor_add (a b n : Z) :
  0 <= n -> 0 <= b < 2 ^ n -> a mod 2 ^ n = 0 -> Z.lor a b = a + b.
Proof.
  intros Hn Hb Ha.
  rewrite <- Z.lxor_lor, <- Z.add_nocarry_lxor; auto.
  all: apply Z.bits_inj'; intros i Hi; rewrite Z.land_spec, Z.bits_0.
  all: destruct (Z.lt_ge_cases i n) as [Hlt | Hge].
  all: try (rewrite <- (Z.mod_small b (2 ^ n)) by lia;
            rewrite Z.mod_pow2_bits_high by lia; apply andb_false_r).
  all: rewrite <- (Z.mod_pow2_bits_low a n i) by lia.
  all: rewrite Ha, Z.bits_0; reflexivity.
Qed.

Ltac consts :=
  change (2 ^ 0) with 1 in *; change (2 ^ 6) with 64 in *;
  change (2 ^ 8) with 256 in *; change (2 ^ 12) with 4096 in *;
  change (2 ^ 16) with 65536 in *; change (2 ^ 18) with 262144 in *.

Ltac arith := consts; Z.div_mod_to_equations; lia.

Ltac shifts :=
  repeat first
    [ rewrite Z.shiftr_div_pow2 by lia
    | rewrite Z.shiftl_mul_pow2 by lia
    | rewrite (Z.land_ones _ 6 ltac:(lia) : Z.land _ 63 = _)
    | rewrite (Z.land_ones _ 8 ltac:(lia) : Z.land _ 255 = _) ].

Lemma byteZ_range (b : byte) : 0 <= byteZ b < 256.
Proof. unfold byteZ. pose proof (Byte.to_N_bounded b). lia. Qed.

Lemma toByte_eq (x : Z) (b : byte) : Z.land x 255 = byteZ b -> toByte x = b.
Proof.
  intros H. unfold toByte. rewrite H. unfold byteZ.
  by rewrite N2Z.id, Byte.of_to_N.
Qed.

(** The alphabet has 64 distinct characters; none is the padding, a line
    break or the token separator. *)
Lemma alphabet_spec (i : Z) :
  0 <= i < 64 ->
  decodeMap (encode i) = Some i
  /\ Ascii.eqb (encode i) padChar = false
  /\ isNewline (encode i) = false
  /\ Ascii.eqb (encode i) "|" = false.
Proof.
  intros Hi.
  assert (Hall : forallb alphabet_check (seq 0 64) = true) by (vm_compute; reflexivity).
  rewrite forallb_forall in Hall.
  specialize (Hall (Z.to_nat i)). rewrite in_seq in Hall.
  specialize (Hall ltac:(lia)). unfold alphabet_check in Hall.
  rewrite Z2Nat.id in Hall by lia.
  repeat (apply andb_prop in Hall as [Hall ?]).
  destruct (decodeMap (encode i)) as [j|]; [|discriminate].
  apply Z.eqb_eq in Hall as ->.
  repeat split; by apply negb_true_iff.
Qed.

Lemma sextet_spec (val shift : Z) :
  0 <= shift ->
  decodeMap (sextet val shift) = Some (Z.land (Z.shiftr val shift) 63)
  /\ Ascii.eqb (sextet val shift) padChar = false
  /\ isNewline (sextet val shift) = false
  /\ Ascii.eqb (sextet val shift) "|" = false.
Proof.
  intros Hs. apply alphabet_spec. shifts. apply Z.mod_pos_bound. lia.
Qed.

(** A full group: the four sextets of three bytes give the bytes back. *)
Lemma quantum3 (a b c : Z) :
  0 <= a < 256 -> 0 <= b < 256 -> 0 <= c < 256 ->
  let val := Z.lor (Z.lor (Z.shiftl a 16) (Z.shiftl b 8)) c in
  let val' := quantum (Z.land (Z.shiftr val 18) 63) (Z.land (Z.shiftr val 12) 63)
                      (Z.land (Z.shiftr val 6) 63) (Z.land (Z.shiftr val 0) 63) in
  Z.land (Z.shiftr val' 16) 255 = a /\ Z.land (Z.shiftr val' 8) 255 = b
  /\ Z.land val' 255 = c.
Proof.
  intros Ha Hb Hc val.
  assert (Hval : val = a * 65536 + b * 256 + c).
  { unfold val. shifts.
    rewrite (lor_add (a * _) (b * _) 16), (lor_add _ c 8). all: arith. }
  clearbody val. subst val. unfold quantum. shifts.
  rewrite (lor_add (_ * 2 ^ 18) (_ * 2 ^ 12) 18), (lor_add _ (_ * 2 ^ 6) 12),
    (lor_add _ _ 6).
  all: arith.
Qed.

(** Two bytes and one padding character. *)
Lemma quantum2 (a b : Z) :
  0 <= a < 256 -> 0 <= b < 256 ->
  let val := Z.lor (Z.shiftl a 16) (Z.shiftl b 8) in
  let val' := quantum (Z.land (Z.shiftr val 18) 63) (Z.land (Z.shiftr val 12) 63)
                      (Z.land (Z.shiftr val 6) 63) 0 in
  Z.land (Z.shiftr val' 16) 255 = a /\ Z.land (Z.shiftr val' 8) 255 = b.
Proof.
  intros Ha Hb val.
  assert (Hval : val = a * 65536 + b * 256).
  { unfold val. shifts. rewrite (lor_add (a * _) (b * _) 16). all: arith. }
  clearbody val. subst val. unfold quantum. shifts.
  rewrite (lor_add (_ * 2 ^ 18) (_ * 2 ^ 12) 18), (lor_add _ (_ * 2 ^ 6) 12),
    (lor_add _ _ 6).
  all: arith.
Qed.

(** One byte and two padding characters. *)
Lemma quantum1 (a : Z) :
  0 <= a < 256 ->
  let val := Z.shiftl a 16 in
  let val' := quantum (Z.land (Z.shiftr val 18) 63)
                      (Z.land (Z.shiftr val 12) 63) 0 0 in
  Z.land (Z.shiftr val' 16) 255 = a.
Proof.
  intros Ha val.
  assert (Hval : val = a * 65536) by (unfold val; shifts; arith).
  clearbody val. subst val. unfold quantum. shifts.
  rewrite (lor_add (_ * 2 ^ 18) (_ * 2 ^ 12) 18), (lor_add _ (_ * 2 ^ 6) 12),
    (lor_add _ _ 6).
  all: arith.
Qed.

(** Induction over a byte sequence three bytes at a time. *)
Lemma list_ind3 {A : Type} (P : list A -> Prop) :
  P [] -> (forall a, P [a]) -> (forall a b, P [a; b]) ->
  (forall a b c l, P l -> P (a :: b :: c :: l)) ->
  forall l, P l.
Proof.
  intros H0 H1 H2 H3 l.
  assert (H : P l /\ (forall a, P (a :: l)) /\ (forall a b, P (a :: b :: l))).
  { induction l as [|x l (IH0 & IH1 & IH2)]; [by auto|].
    split; [apply IH1|]. split; [intros a; apply IH2|]. intros a b. by apply H3. }
  apply H.
Qed.

Lemma EncodeToString_triple (a b c : byte) (rest : list byte) :
  EncodeToString (a :: b :: c :: rest) =
    let val := Z.lor (Z.lor (Z.shiftl (byteZ a) 16) (Z.shiftl (byteZ b) 8))
                     (byteZ c) in
    String (sextet val 18) (String (sextet val 12)
      (String (sextet val 6) (String (sextet val 0) (EncodeToString rest)))).
Proof. reflexivity. Qed.

Lemma decodeQuanta_full (c0 c1 c2 c3 : ascii) (d0 d1 d2 d3 : Z) (rest : string) :
  decodeMap c0 = Some d0 -> decodeMap c1 = Some d1 ->
  decodeMap c2 = Some d2 -> decodeMap c3 = Some d3 ->
  Ascii.eqb c2 padChar = false -> Ascii.eqb c3 padChar = false ->
  decodeQuanta (String c0 (String c1 (String c2 (String c3 rest)))) =
    match decodeQuanta rest with
    | Some bs =>
        let val := quantum d0 d1 d2 d3 in
        Some (toByte (Z.shiftr val 16) :: toByte (Z.shiftr val 8)
              :: toByte val :: bs)
    | None => None
    end.
Proof.
  intros E0 E1 E2 E3 P2 P3. cbn [decodeQuanta].
  by rewrite E0, E1, P2, E2, P3, E3.
Qed.

Lemma decodeQuanta_pad1 (c0 c1 c2 : ascii) (d0 d1 d2 : Z) :
  decodeMap c0 = Some d0 -> decodeMap c1 = Some d1 ->
  decodeMap c2 = Some d2 -> Ascii.eqb c2 padChar = false ->
  decodeQuanta (String c0 (String c1 (String c2 (String padChar "")))) =
    let val := quantum d0 d1 d2 0 in
    Some [toByte (Z.shiftr val 16); toByte (Z.shiftr val 8)].
Proof.
  intros E0 E1 E2 P2. cbn [decodeQuanta].
  by rewrite E0, E1, P2, E2, Ascii.eqb_refl.
Qed.

Lemma decodeQuanta_pad2 (c0 c1 : ascii) (d0 d1 : Z) :
  decodeMap c0 = Some d0 -> decodeMap c1 = Some d1 ->
  decodeQuanta (String c0 (String c1 (String padChar (String padChar "")))) =
    Some [toByte (Z.shiftr (quantum d0 d1 0 0) 16)].
Proof.
  intros E0 E1. cbn [decodeQuanta]. by rewrite E0, E1, !Ascii.eqb_refl.
Qed.

(** Decoding undoes encoding, quantum by quantum. *)
Lemma decodeQuanta_EncodeToString (src : list byte) :
  decodeQuanta (EncodeToString src) = Some src.
Proof.
  induction src as [|a|a b|a b c rest IH] using list_ind3.
  - reflexivity.
  - cbn [EncodeToString].
    rewrite (decodeQuanta_pad2 _ _ _ _
               (proj1 (sextet_spec _ 18 ltac:(lia)))
               (proj1 (sextet_spec _ 12 ltac:(lia)))).
    f_equal. f_equal. apply toByte_eq, quantum1, byteZ_range.
  - cbn [EncodeToString].
    destruct (sextet_spec (Z.lor (Z.shiftl (byteZ a) 16) (Z.shiftl (byteZ b) 8)) 6
                ltac:(lia)) as (E2 & P2 & _).
    rewrite (decodeQuanta_pad1 _ _ _ _ _ _
               (proj1 (sextet_spec _ 18 ltac:(lia)))
               (proj1 (sextet_spec _ 12 ltac:(lia))) E2 P2).
    destruct (quantum2 (byteZ a) (byteZ b) (byteZ_range a) (byteZ_range b))
      as (Qa & Qb).
    cbv zeta. f_equal. f_equal; [|f_equal]; by apply toByte_eq.
  - rewrite EncodeToString_triple. cbv zeta.
    set (val := Z.lor _ (byteZ c)).
    destruct (sextet_spec val 6 ltac:(lia)) as (E2 & P2 & _).
    destruct (sextet_spec val 0 ltac:(lia)) as (E3 & P3 & _).
    rewrite (decodeQuanta_full _ _ _ _ _ _ _ _ _
               (proj1 (sextet_spec _ 18 ltac:(lia)))
               (proj1 (sextet_spec _ 12 ltac:(lia))) E2 E3 P2 P3).
    rewrite IH. cbv zeta.
    destruct (quantum3 (byteZ a) (byteZ b) (byteZ c)
                (byteZ_range a) (byteZ_range b) (byteZ_range c))
      as (Qa & Qb & Qc).
    f_equal. f_equal; [|f_equal; [|f_equal]]; by apply toByte_eq.
Qed.

Local Close Scope Z_scope.

(** The encoder writes alphabet and padding characters only. *)
Lemma EncodeToString_chars (src : list byte) :
  allChars tokenChar (EncodeToString src) = true.
Proof.
  assert (Hs : forall val shift, (0 <= shift)%Z ->
                 tokenChar (sextet val shift) = true).
  { intros val shift Hs. unfold tokenChar.
    destruct (sextet_spec val shift Hs) as (_ & _ & -> & ->). reflexivity. }
  induction src as [|a|a b|a b c rest IH] using list_ind3.
  - reflexivity.
  - cbn [EncodeToString allChars]. rewrite !Hs by lia. reflexivity.
  - cbn [EncodeToString allChars]. rewrite !Hs by lia. reflexivity.
  - rewrite EncodeToString_triple. cbn [allChars]. rewrite !Hs by lia.
    rewrite IH. reflexivity.
Qed.

Lemma stripNewlines_id (s : string) :
  allChars tokenChar s = true -> stripNewlines s = s.
Proof.
  induction s as [|c s IH]; [done|]. cbn [allChars stripNewlines].
  intros [Hc Hs]%andb_prop. unfold tokenChar in Hc.
  apply andb_prop in Hc as [Hn _]. apply negb_true_iff in Hn.
  rewrite Hn. by rewrite IH.
Qed.

Lemma allChars_no_sep (s : string) :
  allChars tokenChar s = true -> Strings.Index s "|" = None.
Proof.
  induction s as [|c s IH]; [done|]. cbn [allChars].
  intros [Hc Hs]%andb_prop. unfold tokenChar in Hc.
  apply andb_prop in Hc as [_ Hb]. apply negb_true_iff in Hb.
  rewrite Index_bar_cons, Hb, IH by done. reflexivity.
Qed.

(** [DecodeString(EncodeToString(src)) = src]. *)
Lemma DecodeString_EncodeToString (src : list byte) :
  DecodeString (EncodeToString src) = Some src.
Proof.
  unfold DecodeString.
  rewrite stripNewlines_id by apply EncodeToString_chars.
  apply decodeQuanta_EncodeToString.
Qed.

(** A base64 segment never contains the token separator. *)
Lemma EncodeToString_no_sep (src : list byte) :
  Strings.Index (EncodeToString src) "|" = None.
Proof. apply allChars_no_sep, EncodeToString_chars. Qed.

End Base64Facts.

(** ** The registry *)

Section RegistryFacts.

Variable NewGCM : list byte -> AEAD.

Lemma newKey_Ok (id : string) (kb : list byte) (k : Key) :
  newKey NewGCM id kb = Ok k -> validKey NewGCM id k /\ Value k = kb.
Proof.
  unfold newKey. case_decide as Hlen; [|discriminate].
  intros [= <-]. by repeat split.
Qed.

Lemma initKeys_valid (entries : list (string * list byte))
    (acc ks : gmap string Key) :
  initKeys NewGCM entries acc = Ok ks ->
  (forall id k, acc !! id = Some k -> validKey NewGCM id k) ->
  forall id k, ks !! id = Some k -> validKey NewGCM id k.
Proof.
  revert acc. induction entries as [|[keyID keyBytes] rest IH]; intros acc.
  - intros [= <-]. auto.
  - cbn [initKeys]. destruct (newKey NewGCM keyID keyBytes) as [key| |] eqn:E;
      [|discriminate..].
    intros Hks Hacc. apply (IH _ Hks). intros id k.
    destruct (decide (keyID = id)) as [<- | Hne].
    + rewrite lookup_insert_eq. intros [= <-]. by apply newKey_Ok in E as [? _].
    + rewrite lookup_insert_ne by done. apply Hacc.
Qed.

Lemma initKeys_registered (entries : list (string * list byte))
    (acc ks : gmap string Key) (id : string) :
  initKeys NewGCM entries acc = Ok ks ->
  is_Some (ks !! id) <-> is_Some (acc !! id) \/ id ∈ entries.*1.
Proof.
  revert acc. induction entries as [|[keyID keyBytes] rest IH]; intros acc.
  - intros [= <-]. cbn. rewrite elem_of_nil. tauto.
  - cbn [initKeys]. destruct (newKey NewGCM keyID keyBytes) as [key| |] eqn:E;
      [|discriminate..].
    intros Hks. rewrite (IH _ Hks). cbn. rewrite elem_of_cons.
    destruct (decide (keyID = id)) as [<- | Hne].
    + rewrite lookup_insert_eq. split; [auto|]. intros _. left. by eexists.
    + rewrite lookup_insert_ne by done. split; intros [?|?]; auto.
      destruct H as [?|?]; [congruence | auto].
Qed.

Lemma initKeys_total (entries : list (string * list byte))
    (acc : gmap string Key) :
  (forall id kb, (id, kb) ∈ entries -> length kb = 32) ->
  exists ks, initKeys NewGCM entries acc = Ok ks.
Proof.
  revert acc. induction entries as [|[keyID keyBytes] rest IH]; intros acc Hlen.
  - by eexists.
  - cbn [initKeys]. unfold newKey.
    rewrite decide_True by (apply (Hlen keyID); left).
    apply IH. intros id kb Hin. apply (Hlen id). by right.
Qed.

(** [New] establishes the registry invariant. *)
Lemma New_registry_ok (config : Config) (g : GovaultDB) :
  New NewGCM config = Ok g -> registry_ok NewGCM g.
Proof.
  unfold New. repeat case_decide; try discriminate.
  destruct (Keys config !! DefaultKeyID config) as [kb|] eqn:Hdef; [|discriminate].
  destruct (initKeys NewGCM (map_to_list (Keys config)) ∅) as [ks| |] eqn:Hks;
    [|discriminate..].
  cbn. intros [= <-]. split; cbn.
  - apply (initKeys_valid _ _ _ Hks). intros id k. by rewrite lookup_empty.
  - apply (initKeys_registered _ _ _ _ Hks). right.
    apply list_elem_of_fmap. exists (DefaultKeyID config, kb). split; [done|].
    by apply elem_of_map_to_list.
Qed.

(** The registry has exactly the configured identifiers. *)
Lemma New_registered (config : Config) (g : GovaultDB) (id : string) :
  New NewGCM config = Ok g ->
  defaultKey g = DefaultKeyID config
  /\ (is_Some (keys g !! id) <-> is_Some (Keys config !! id)).
Proof.
  unfold New. repeat case_decide; try discriminate.
  destruct (Keys config !! DefaultKeyID config) as [kb|] eqn:Hdef; [|discriminate].
  destruct (initKeys NewGCM (map_to_list (Keys config)) ∅) as [ks| |] eqn:Hks;
    [|discriminate..].
  cbn. intros [= <-]. split; [done|]. cbn.
  rewrite (initKeys_registered _ _ _ _ Hks), lookup_empty.
  rewrite list_elem_of_fmap. split.
  - intros [[? [=]] | ([id' kb'] & -> & Hin)].
    apply elem_of_map_to_list in Hin. by eexists.
  - intros [kb' Hkb]. right. exists (id, kb'). split; [done|].
    by apply elem_of_map_to_list.
Qed.

(** [New] succeeds on every non-empty set of 32-byte keys whose default is
    among them. *)
Lemma New_total (config : Config) :
  (forall id kb, Keys config !! id = Some kb -> length kb = 32) ->
  DefaultKeyID config <> "" ->
  is_Some (Keys config !! DefaultKeyID config) ->
  exists g, New NewGCM config = Ok g.
Proof.
  intros Hlen Hne [kb Hdef]. unfold New.
  rewrite decide_False.
  2:{ intros Hsz. apply map_size_empty_iff in Hsz. rewrite Hsz in Hdef.
      by rewrite lookup_empty in Hdef. }
  rewrite decide_False by done. rewrite Hdef.
  destruct (initKeys_total (map_to_list (Keys config)) ∅) as [ks ->].
  - intros id kb' Hin. apply elem_of_map_to_list in Hin. eauto.
  - by eexists.
Qed.

End RegistryFacts.

Lemma string_le_total : Total string_le.
Proof. intros a b. apply String.leb_total. Qed.

(** [GetKeyIDs] lists exactly the registered identifiers, in order. *)
Lemma GetKeyIDs_spec (g : GovaultDB) :
  (forall id, id ∈ GetKeyIDs g <-> is_Some (keys g !! id))
  /\ Sorted string_le (GetKeyIDs g).
Proof.
  split.
  - intros id. unfold GetKeyIDs. rewrite merge_sort_Permutation.
    rewrite list_elem_of_fmap. split.
    + intros ([id' k] & -> & Hin). apply elem_of_map_to_list in Hin. by eexists.
    + intros [k Hk]. exists (id, k). split; [done|]. by apply elem_of_map_to_list.
  - apply Sorted_merge_sort, string_le_total.
Qed.

(** ** The engine *)

Section EngineFacts.

Import Strings.

Lemma wireToken_nonempty (id : string) (nonce ct : list byte) :
  wireToken id nonce ct <> "".
Proof. unfold wireToken. by destruct id. Qed.

Lemma wireToken_count (id : string) (nonce ct : list byte) :
  count "|" (wireToken id nonce ct) = count "|" id + 2.
Proof.
  unfold wireToken. rewrite !count_append.
  rewrite (proj1 (Index_None_count _) (EncodeToString_no_sep nonce)).
  rewrite (proj1 (Index_None_count _) (EncodeToString_no_sep ct)).
  cbn. lia.
Qed.

(** A token whose key identifier has no separator splits into its three
    segments. *)
Lemma wireToken_SplitN (id : string) (nonce ct : list byte) :
  Index id "|" = None ->
  SplitN (wireToken id nonce ct) "|" 3 =
    [id; Base64.EncodeToString nonce; Base64.EncodeToString ct].
Proof.
  intros Hid. unfold wireToken.
  change (SplitN ?s "|" 3) with (genSplit s "|" 2).
  rewrite genSplit_cut by done.
  rewrite genSplit_cut by apply EncodeToString_no_sep.
  reflexivity.
Qed.

(** [Encrypt] on a non-empty plaintext, a registered key and enough
    entropy. *)
Lemma Encrypt_wireToken (g : GovaultDB) (plaintext : string)
    (keyID : list string) (src : entropy) (key : Key) :
  plaintext <> "" ->
  keys g !! targetKeyID g keyID = Some key ->
  NonceSize (cipher key) <= length src ->
  let nonce := take (NonceSize (cipher key)) src in
  Encrypt g plaintext keyID src =
    (Ok (wireToken (targetKeyID g keyID) nonce
           (rawSeal (cipher key) nonce (list_byte_of_string plaintext))),
     drop (NonceSize (cipher key)) src).
Proof.
  intros Hp Hkey Hsrc nonce. unfold Encrypt.
  rewrite decide_False by done. cbv zeta. rewrite Hkey.
  unfold rand_Read. rewrite decide_True by done.
  unfold Seal. rewrite decide_True; [reflexivity|].
  rewrite length_take. lia.
Qed.

(** [Decrypt] on a well-formed token of a registered key comes down to
    [Open]. *)
Lemma Decrypt_wireToken (g : GovaultDB) (id : string) (key : Key)
    (nonce ct : list byte) :
  Index id "|" = None ->
  keys g !! id = Some key ->
  Decrypt g (wireToken id nonce ct) =
    let* opened := Open (cipher key) nonce ct in
    match opened with
    | None => Err ErrDecrypt
    | Some plaintext => Ok (string_of_list_byte plaintext)
    end.
Proof.
  intros Hid Hkey. unfold Decrypt.
  rewrite decide_False by apply wireToken_nonempty.
  rewrite wireToken_SplitN by done. rewrite Hkey.
  by rewrite !DecodeString_EncodeToString.
Qed.

Lemma GetKeyID_wireToken (id : string) (nonce ct : list byte) :
  Index id "|" = None ->
  GetKeyIDFromEncryptedData (wireToken id nonce ct) = Ok id.
Proof.
  intros Hid. unfold GetKeyIDFromEncryptedData.
  rewrite decide_False by apply wireToken_nonempty. unfold wireToken.
  change (SplitN ?s "|" 2) with (genSplit s "|" 1).
  by rewrite genSplit_cut.
Qed.

(** Sealing then opening under one key. *)
Lemma Decrypt_sealed (g : GovaultDB) (id : string) (key : Key)
    (nonce : list byte) (plaintext : string) :
  Index id "|" = None ->
  keys g !! id = Some key ->
  AEAD_correct (cipher key) ->
  length nonce = NonceSize (cipher key) ->
  Decrypt g (wireToken id nonce
               (rawSeal (cipher key) nonce (list_byte_of_string plaintext)))
    = Ok plaintext.
Proof.
  intros Hid Hkey Hc Hn. rewrite (Decrypt_wireToken _ _ key) by done.
  unfold Open. rewrite decide_True by done. cbn [bind].
  rewrite Hc by done. by rewrite string_of_list_byte_of_string.
Qed.

(** With fewer than two separators the split has fewer than three parts. *)
Lemma SplitN3_length (s : string) :
  length (SplitN s "|" 3) = S (Nat.min 2 (count "|" s)).
Proof. apply genSplit_length. Qed.

Lemma Decrypt_format (g : GovaultDB) (s : string) :
  s <> "" ->
  Decrypt g s = Err ErrInvalidFormat <-> count "|" s < 2.
Proof.
  intros Hs. unfold Decrypt. rewrite decide_False by done.
  pose proof (SplitN3_length s) as Hlen.
  destruct (SplitN s "|" 3) as [|p0 [|p1 [|p2 [|p3 rest]]]]; cbn [length] in Hlen.
  1-3, 5: split; [lia || (intros _; lia) | done].
  split; [|lia]. intros H. exfalso.
  destruct (keys g !! p0) as [key|]; [|discriminate].
  destruct (Base64.DecodeString p1); [|discriminate].
  destruct (Base64.DecodeString p2); [|discriminate].
  unfold Open in H. case_decide; [|discriminate]. cbn in H.
  by destruct (rawOpen (cipher key) l l0).
Qed.

End EngineFacts.

(** ** The engine: specification claims *)

Lemma Contains_false_Index (s : string) :
  Strings.Contains s "|" = false -> Strings.Index s "|" = None.
Proof. unfold Strings.Contains. by destruct (Strings.Index s "|"). Qed.

Lemma Index_Contains_false (s : string) :
  Strings.Index s "|" = None -> Strings.Contains s "|" = false.
Proof. unfold Strings.Contains. by intros ->. Qed.

Lemma toyGCM_correct (kb : list byte) :
  length kb = 32 -> AEAD_correct (Sample.toyGCM kb).
Proof.
  intros _ nonce plaintext _. cbn [Sample.toyGCM rawOpen rawSeal].
  rewrite take_app_length, drop_app_length. by rewrite decide_True.
Qed.

(** C1 (amended): for every registry built by [New] (so from 32-byte keys),
    every plaintext and every key the call resolves to (the default key or a
    registered explicit one) whose identifier contains no ['|'],
    [Encrypt] returns a token and [Decrypt] of that token returns the
    plaintext.  [rand.Read] is assumed to have the nonce's worth of entropy. *)
Theorem Decrypt_Encrypt_roundtrip (NewGCM : list byte -> AEAD)
    (config : Config) (g : GovaultDB) (plaintext : string)
    (keyID : list string) (src : entropy) (key : Key) :
  (forall kb, length kb = 32 -> AEAD_correct (NewGCM kb)) ->
  New NewGCM config = Ok g ->
  keys g !! targetKeyID g keyID = Some key ->
  Strings.Contains (targetKeyID g keyID) "|" = false ->
  NonceSize (cipher key) <= length src ->
  exists token src',
    Encrypt g plaintext keyID src = (Ok token, src')
    /\ Decrypt g token = Ok plaintext.
Proof.
  intros Hgcm Hnew Hkey Hid Hsrc.
  destruct (decide (plaintext = "")) as [-> | Hp].
  - exists "", src. split; reflexivity.
  - eexists _, _. split; [by apply Encrypt_wireToken|].
    apply New_registry_ok in Hnew as [Hvalid _].
    destruct (Hvalid _ _ Hkey) as (_ & Hlen & Hcipher).
    apply Decrypt_sealed; [by apply Contains_false_Index | done | |].
    + rewrite Hcipher. by apply Hgcm.
    + rewrite length_take. lia.
Qed.

Lemma Decrypt_Encrypt_roundtrip_witness :
  New Sample.toyGCM Sample.config12 = Ok Sample.g12
  /\ exists token src',
       Encrypt Sample.g12 "a@x.com" [] Sample.noise = (Ok token, src')
       /\ Decrypt Sample.g12 token = Ok "a@x.com".
Proof.
  split; [vm_compute; reflexivity|].
  apply (Decrypt_Encrypt_roundtrip Sample.toyGCM Sample.config12 Sample.g12
           "a@x.com" [] Sample.noise (Sample.key "2" Sample.K2)).
  - apply toyGCM_correct.
  - vm_compute; reflexivity.
  - vm_compute; reflexivity.
  - vm_compute; reflexivity.
  - vm_compute; lia.
Defined.

(** C1 as stated fails: a registry whose default key is named ["a|b"] is
    built from a 32-byte key, yet the token it produces is looked up under
    ["a"] and does not decrypt. *)
Lemma Decrypt_Encrypt_separator_in_key_id :
  New Sample.toyGCM Sample.configBar = Ok Sample.gBar
  /\ fst (Encrypt Sample.gBar "a@x.com" [] Sample.noise)
     = Ok "a|b|AAAAAAAAAAAAAAAA|AQAAAAAAAAAAAAAAAGFAeC5jb20="
  /\ Decrypt Sample.gBar "a|b|AAAAAAAAAAAAAAAA|AQAAAAAAAAAAAAAAAGFAeC5jb20="
     = Err (ErrKeyNotFound "a" ["a|b"])
  /\ Decrypt Sample.gBar "a|b|AAAAAAAAAAAAAAAA|AQAAAAAAAAAAAAAAAGFAeC5jb20="
     <> Ok "a@x.com".
Proof. repeat split; try (vm_compute; reflexivity). vm_compute. discriminate. Qed.



(** The failure above does not come from the stand-in cipher: whatever
    [NewGCM] is, the registry built from [Sample.configBar] looks the token
    up under ["a"], before any cipher is called. *)
Lemma separator_in_key_id_any_cipher (NewGCM : list byte -> AEAD)
    (g : GovaultDB) (plaintext : string) (src : entropy) :
  New NewGCM Sample.configBar = Ok g ->
  plaintext <> "" ->
  (forall kb, NonceSize (NewGCM kb) <= length src) ->
  exists token src',
    Encrypt g plaintext [] src = (Ok token, src')
    /\ Decrypt g token = Err (ErrKeyNotFound "a" (GetKeyIDs g)).
Proof.
  intros Hnew Hp Hsrc.
  destruct (New_registered NewGCM _ _ "a|b" Hnew) as [Hdef [_ Hreg]].
  destruct (New_registered NewGCM _ _ "a" Hnew) as [_ [Ha _]].
  destruct Hreg as [key Hkey]; [eexists; reflexivity|].
  assert (Hnone : keys g !! "a" = None).
  { destruct (keys g !! "a") eqn:E; [|reflexivity].
    destruct Ha as [? Ha]; [eexists; reflexivity | discriminate Ha]. }
  assert (Hcipher : cipher key = NewGCM (Value key)).
  { destruct (New_registry_ok NewGCM _ _ Hnew) as [Hvalid _].
    by destruct (Hvalid _ _ Hkey) as (_ & _ & ->). }
  assert (Htarget : targetKeyID g [] = "a|b") by exact Hdef.
  eexists _, _. split.
  - apply (Encrypt_wireToken g plaintext [] src key); [done | by rewrite Htarget |].
    rewrite Hcipher. apply Hsrc.
  - rewrite Htarget. unfold Decrypt, wireToken.
    rewrite decide_False by discriminate.
    change (Strings.SplitN ("a|b" +:+ ?x) "|" 3)
      with (Strings.genSplit ("a" +:+ "|" +:+ "b" +:+ x) "|" 2).
    rewrite !genSplit_cut by reflexivity. cbn [Strings.genSplit].
    rewrite Hnone. reflexivity.
Qed.

(** C4 (amended): on a non-empty plaintext, [Encrypt] returns the resolved
    key identifier, the standard base64 of the nonce and the standard base64
    of the ciphertext, joined by two ['|'].  Neither base64 segment contains
    ['|'], so the token has exactly two more ['|'] than the key identifier
    has; when the key identifier contains none, the token has exactly two
    and splits into exactly these three parts. *)
Theorem Encrypt_token_format (g : GovaultDB) (plaintext : string)
    (keyID : list string) (src : entropy) (key : Key) :
  plaintext <> "" ->
  keys g !! targetKeyID g keyID = Some key ->
  NonceSize (cipher key) <= length src ->
  let id := targetKeyID g keyID in
  let nonceB64 := Base64.EncodeToString (take (NonceSize (cipher key)) src) in
  let ciphertextB64 :=
    Base64.EncodeToString
      (rawSeal (cipher key) (take (NonceSize (cipher key)) src)
         (list_byte_of_string plaintext)) in
  let token := id +:+ "|" +:+ nonceB64 +:+ "|" +:+ ciphertextB64 in
  fst (Encrypt g plaintext keyID src) = Ok token
  /\ Strings.Contains nonceB64 "|" = false
  /\ Strings.Contains ciphertextB64 "|" = false
  /\ Strings.count "|" token = Strings.count "|" id + 2
  /\ (Strings.Contains id "|" = false ->
      Strings.count "|" token = 2
      /\ Strings.SplitN token "|" 3 = [id; nonceB64; ciphertextB64]).
Proof.
  intros Hp Hkey Hsrc id nonceB64 ciphertextB64 token.
  split; [by rewrite (Encrypt_wireToken _ _ _ _ key)|].
  split; [apply Index_Contains_false, EncodeToString_no_sep|].
  split; [apply Index_Contains_false, EncodeToString_no_sep|].
  split; [apply wireToken_count|].
  intros Hid. split.
  - transitivity (Strings.count "|" id + 2); [apply wireToken_count|].
    apply Contains_count in Hid. lia.
  - by apply wireToken_SplitN, Contains_false_Index.
Qed.

Lemma Encrypt_token_format_witness :
  fst (Encrypt Sample.g12 "a@x.com" [] Sample.noise)
  = Ok "2|AAAAAAAAAAAAAAAA|AgAAAAAAAAAAAAAAAGFAeC5jb20="
  /\ Strings.SplitN "2|AAAAAAAAAAAAAAAA|AgAAAAAAAAAAAAAAAGFAeC5jb20=" "|" 3
     = ["2"; "AAAAAAAAAAAAAAAA"; "AgAAAAAAAAAAAAAAAGFAeC5jb20="].
Proof.
  destruct (Encrypt_token_format Sample.g12 "a@x.com" [] Sample.noise
              (Sample.key "2" Sample.K2))
    as (Htoken & _ & _ & _ & Hsplit).
  - discriminate.
  - vm_compute; reflexivity.
  - vm_compute; lia.
  - split; [exact Htoken|]. apply Hsplit. vm_compute; reflexivity.
Defined.

(** C4 as stated fails: under the key named ["a|b"] the token has three
    ['|'] and its three-way split is not (key, nonce, ciphertext). *)
Lemma Encrypt_token_three_separators :
  fst (Encrypt Sample.gBar "a@x.com" [] Sample.noise)
  = Ok "a|b|AAAAAAAAAAAAAAAA|AQAAAAAAAAAAAAAAAGFAeC5jb20="
  /\ Strings.count "|" "a|b|AAAAAAAAAAAAAAAA|AQAAAAAAAAAAAAAAAGFAeC5jb20=" = 3
  /\ Strings.SplitN "a|b|AAAAAAAAAAAAAAAA|AQAAAAAAAAAAAAAAAGFAeC5jb20=" "|" 3
     = ["a"; "b"; "AAAAAAAAAAAAAAAA|AQAAAAAAAAAAAAAAAGFAeC5jb20="].
Proof. repeat split; vm_compute; reflexivity. Qed.



(** C6 (amended): on a non-empty input, [Decrypt] returns the
    invalid-format error exactly when the input has fewer than two ['|'];
    with two or more the split has three parts and passes the check, whether
    or not a part is empty. *)
Theorem Decrypt_malformed (g : GovaultDB) (encryptedData : string) :
  encryptedData <> "" ->
  (Decrypt g encryptedData = Err ErrInvalidFormat
   <-> Strings.count "|" encryptedData < 2)
  /\ (2 <= Strings.count "|" encryptedData ->
      length (Strings.SplitN encryptedData "|" 3) = 3).
Proof.
  intros Hs. split; [by apply Decrypt_format|].
  intros Hc. rewrite SplitN3_length. lia.
Qed.

Lemma Decrypt_malformed_witness :
  (Decrypt Sample.g12 "2|AAAA" = Err ErrInvalidFormat
   <-> Strings.count "|" "2|AAAA" < 2)
  /\ (2 <= Strings.count "|" "2|AAAA" ->
      length (Strings.SplitN "2|AAAA" "|" 3) = 3).
Proof. apply (Decrypt_malformed Sample.g12 "2|AAAA"). discriminate. Defined.

(** C6 as stated fails: a token with an empty key identifier has three
    parts, goes on to the key lookup and fails there with the unknown-key
    error, not with the invalid-format one. *)
Lemma Decrypt_empty_segment_not_malformed :
  Strings.SplitN "|x|y" "|" 3 = [""; "x"; "y"]
  /\ Decrypt Sample.g12 "|x|y" = Err (ErrKeyNotFound "" ["1"; "2"])
  /\ Decrypt Sample.g12 "|x|y" <> Err ErrInvalidFormat.
Proof. repeat split; try (vm_compute; reflexivity). vm_compute. discriminate. Qed.

(** C9: [Encrypt] and [Decrypt] return the empty string, and no error, on
    the empty string, for every registry (whatever keys and ciphers it
    holds, even none) and every key argument; [Encrypt] leaves the entropy
    untouched. *)
Theorem empty_fast_path (g : GovaultDB) (keyID : list string) (src : entropy) :
  Encrypt g "" keyID src = (Ok "", src) /\ Decrypt g "" = Ok "".
Proof. split; reflexivity. Qed.

(** C10: [GetKeyIDFromEncryptedData] returns an identifier, never an error:
    the empty string for the empty string, what precedes the first ['|']
    when there is one, the whole input otherwise; the split it relies on
    never yields an empty list. *)
Theorem GetKeyIDFromEncryptedData_total (encryptedData : string) :
  exists id,
    GetKeyIDFromEncryptedData encryptedData = Ok id
    /\ (encryptedData = "" -> id = "")
    /\ (Strings.Contains encryptedData "|" = true ->
        Strings.Contains id "|" = false
        /\ exists rest, encryptedData = id +:+ "|" +:+ rest)
    /\ (Strings.Contains encryptedData "|" = false -> id = encryptedData)
    /\ 1 <= length (Strings.SplitN encryptedData "|" 2).
Proof.
  unfold GetKeyIDFromEncryptedData.
  change (Strings.SplitN encryptedData "|" 2)
    with (Strings.genSplit encryptedData "|" 1).
  destruct (decide (encryptedData = "")) as [-> | Hne].
  { exists "". by repeat split. }
  cbn [Strings.genSplit]. unfold Strings.Contains.
  destruct (Strings.Index encryptedData "|") as [m|] eqn:E.
  - destruct (Index_Some_cut _ _ E) as (a & b & Hs & Ha & _ & -> & _).
    exists a. repeat split; try done.
    + by rewrite Ha.
    + by exists b.
    + cbn. lia.
  - exists encryptedData. by repeat split.
Qed.

(** ** The walkers *)

Section LoopFacts.

Context {A : Type}.

Lemma forEach_app (step : A -> A * result unit) (l1 l2 : list A) :
  forEach step (l1 ++ l2)%list =
    match forEach step l1 with
    | (l1', Ok _) => let '(l2', r) := forEach step l2 in ((l1' ++ l2')%list, r)
    | (l1', r) => ((l1' ++ l2)%list, r)
    end.
Proof.
  induction l1 as [|x l1 IH]; cbn [forEach app].
  - by destruct (forEach step l2).
  - destruct (step x) as [x' [[]| |]]; try reflexivity.
    rewrite IH. destruct (forEach step l1) as [l1' [[]| |]]; try reflexivity.
    by destruct (forEach step l2).
Qed.

Lemma forEach_length (step : A -> A * result unit) (l : list A) :
  length (forEach step l).1 = length l.
Proof.
  induction l as [|x l IH]; cbn [forEach]; [done|].
  destruct (step x) as [x' [[]| |]]; try reflexivity.
  destruct (forEach step l) as [l' r]. cbn in *. by rewrite IH.
Qed.

Lemma forEach_ext (step1 step2 : A -> A * result unit) (l : list A) :
  Forall (fun x => step1 x = step2 x) l -> forEach step1 l = forEach step2 l.
Proof.
  induction 1 as [|x l Hx _ IH]; cbn [forEach]; [done|].
  by rewrite Hx, IH.
Qed.

(** An element whose step changes nothing and succeeds can be taken out
    of the loop and put back. *)
Lemma forEach_skip (step : A -> A * result unit) (pre post : list A) (x : A) :
  step x = (x, Ok tt) ->
  exists pre' post' r,
    forEach step (pre ++ post)%list = ((pre' ++ post')%list, r)
    /\ length pre' = length pre
    /\ forEach step (pre ++ x :: post)%list = ((pre' ++ x :: post')%list, r).
Proof.
  intros Hx. rewrite !forEach_app. cbn [forEach]. rewrite Hx.
  pose proof (forEach_length step pre) as Hlen.
  destruct (forEach step pre) as [pre' [[]| |]]; cbn in Hlen.
  - destruct (forEach step post) as [post' r]. by exists pre', post', r.
  - by eexists pre', post, _.
  - by eexists pre', post, _.
Qed.

(** The loop stops at the first failing step. *)
Lemma forEach_abort (step : A -> A * result unit) (pre pre' post : list A)
    (x x' : A) (e : error) :
  forEach step pre = (pre', Ok tt) ->
  step x = (x', Err e) ->
  forEach step (pre ++ x :: post)%list = ((pre' ++ x' :: post)%list, Err e).
Proof.
  intros Hpre Hx. rewrite forEach_app, Hpre. cbn [forEach]. by rewrite Hx.
Qed.

Context {S : Type}.

Lemma forEachWith_app (step : A -> S -> A * result unit * S)
    (l1 l2 : list A) (st : S) :
  forEachWith step (l1 ++ l2)%list st =
    match forEachWith step l1 st with
    | (l1', Ok _, st') =>
        let '(l2', r, st'') := forEachWith step l2 st' in
        ((l1' ++ l2')%list, r, st'')
    | (l1', r, st') => ((l1' ++ l2)%list, r, st')
    end.
Proof.
  revert st. induction l1 as [|x l1 IH]; intros st; cbn [forEachWith app].
  - by destruct (forEachWith step l2 st) as [[? ?] ?].
  - destruct (step x st) as [[x' [[]| |]] st']; try reflexivity.
    rewrite IH.
    destruct (forEachWith step l1 st') as [[l1' [[]| |]] st'']; try reflexivity.
    by destruct (forEachWith step l2 st'') as [[? ?] ?].
Qed.

End LoopFacts.

(** Induction over values, through pointers, slices and struct fields. *)
Lemma value_induction (P : value -> Prop) :
  (forall s, P (VString s)) ->
  (forall n, P (VOther n)) ->
  P (VPtr None) ->
  (forall target, P target -> P (VPtr (Some target))) ->
  (forall elems, Forall P elems -> P (VSlice elems)) ->
  (forall fields, Forall (fun f => P f.2) fields -> P (VStruct fields)) ->
  forall v, P v.
Proof.
  intros Hstring Hother Hnil Hptr Hslice Hstruct.
  fix IH 1. intros [s | n | [target|] | elems | fields].
  - apply Hstring.
  - apply Hother.
  - apply Hptr, IH.
  - apply Hnil.
  - apply Hslice. induction elems as [|e elems IHl]; constructor; [apply IH | apply IHl].
  - apply Hstruct. induction fields as [|[ft fv] fields IHl]; constructor;
      [apply IH | apply IHl].
Qed.

Section DecryptFacts.

Lemma decryptValue_struct (g : GovaultDB) (addressable : bool)
    (fields : list (StructField * value)) :
  decryptValue g addressable (VStruct fields) =
    let '(fields', r) :=
      forEach (decryptField g (decryptValue g true) addressable) fields in
    (VStruct fields', r).
Proof. reflexivity. Qed.

Lemma decryptValue_slice (g : GovaultDB) (addressable : bool)
    (elems : list value) :
  decryptValue g addressable (VSlice elems) =
    let '(elems', r) := forEach (decryptElem (decryptValue g true)) elems in
    (VSlice elems', r).
Proof. reflexivity. Qed.

Lemma decryptString_guard (g1 g2 : GovaultDB) (ft : StructField) (s : string) :
  (forall s, s <> "" -> Strings.Contains s "|" = true ->
             Decrypt g1 s = Decrypt g2 s) ->
  decryptString g1 ft s = decryptString g2 ft s.
Proof.
  intros Hagree. unfold decryptString.
  destruct (decide (s = "")) as [-> | Hs]; [done|].
  rewrite bool_decide_eq_false_2 by done. cbn [negb andb].
  destruct (Strings.Contains s "|") eqn:Hc; [|done]. by rewrite Hagree.
Qed.

(** The decrypt pass depends on the registry only through [Decrypt] on
    strings that are non-empty and contain the separator. *)
Lemma decryptValue_guard (g1 g2 : GovaultDB) :
  (forall s, s <> "" -> Strings.Contains s "|" = true ->
             Decrypt g1 s = Decrypt g2 s) ->
  forall v addressable,
    decryptValue g1 addressable v = decryptValue g2 addressable v.
Proof.
  intros Hagree v.
  enough (H : (forall addressable,
                 decryptValue g1 addressable v = decryptValue g2 addressable v)
              /\ (forall target, v = VPtr (Some target) ->
                    decryptValue g1 true target = decryptValue g2 true target))
    by apply H.
  induction v as [s | n | | target [IH _] | elems IH | fields IH]
    using value_induction.
  - by split.
  - by split.
  - by split.
  - split; [done|]. by intros ? [= <-].
  - split; [|done]. intros addressable. rewrite !decryptValue_slice.
    rewrite (forEach_ext _ (decryptElem (decryptValue g2 true))); [done|].
    eapply Forall_impl; [exact IH|]. intros e [He Hptr]. cbn beta.
    destruct e as [| | [target|] | |]; cbn [decryptElem]; try done.
    + by rewrite (Hptr target).
  - split; [|done]. intros addressable. rewrite !decryptValue_struct.
    rewrite (forEach_ext _ (decryptField g2 (decryptValue g2 true) addressable));
      [done|].
    eapply Forall_impl; [exact IH|]. intros [ft fv] [Hf Hptr]. cbn beta.
    unfold decryptField. cbn [snd] in *.
    destruct (negb (addressable && exported ft)); [done|].
    case_decide.
    + destruct fv; try done. by apply decryptString_guard.
    + destruct fv as [| | [target|] | |]; try done.
      * by rewrite (Hptr target).
      * by rewrite Hf.
      * by rewrite Hf.
Qed.

End DecryptFacts.

Section EncryptFacts.

Lemma encryptModel_struct (g : GovaultDB) (q_keyID : string)
    (fields : list (StructField * value)) (src : entropy) :
  encryptModel g q_keyID (Some (VPtr (Some (VStruct fields)))) src =
    let '(fields', r, src') :=
      forEachWith (encryptField g q_keyID true) fields src in
    (Some (VPtr (Some (VStruct fields'))), r, src').
Proof. reflexivity. Qed.

Lemma encryptModel_struct_inv (g : GovaultDB) (q_keyID : string)
    (fields fields' : list (StructField * value)) (r : result unit)
    (src src' : entropy) :
  encryptModel g q_keyID (Some (VPtr (Some (VStruct fields)))) src
  = (Some (VPtr (Some (VStruct fields'))), r, src') ->
  forEachWith (encryptField g q_keyID true) fields src = (fields', r, src').
Proof.
  rewrite encryptModel_struct.
  destruct (forEachWith _ fields src) as [[? ?] ?]. by intros [= <- <- <-].
Qed.

Lemma encryptField_string (g : GovaultDB) (q_keyID : string)
    (ft : StructField) (s : string) (src : entropy) :
  exported ft = true -> Tag_encrypted ft = "true" -> s <> "" ->
  encryptField g q_keyID true (ft, VString s) src =
    match Encrypt g s (if decide (q_keyID = "") then [] else [q_keyID]) src with
    | (Ok encrypted, src') => ((ft, VString encrypted), Ok tt, src')
    | (Err e, src') => ((ft, VString s), Err (ErrEncryptField (Name ft) e), src')
    | (Panic m, src') => ((ft, VString s), Panic m, src')
    end.
Proof.
  intros Hexp Htag Hs. unfold encryptField. rewrite Hexp. cbn [andb negb].
  rewrite decide_True by done. rewrite decide_False by done.
  by destruct (decide (q_keyID = "")).
Qed.

Lemma decryptRecursive_struct_inv (g : GovaultDB)
    (fields fields' : list (StructField * value)) (r : result unit) :
  DecryptRecursive g (Some (VPtr (Some (VStruct fields))))
  = (Some (VPtr (Some (VStruct fields'))), r) ->
  forEach (decryptField g (decryptValue g true) true) fields = (fields', r).
Proof.
  cbn [DecryptRecursive]. rewrite decryptValue_struct.
  destruct (forEach _ fields) as [? ?]. by intros [= <- <-].
Qed.

Lemma decryptRecursive_slice_inv (g : GovaultDB)
    (elems elems' : list value) (r : result unit) :
  DecryptRecursive g (Some (VPtr (Some (VSlice elems))))
  = (Some (VPtr (Some (VSlice elems'))), r) ->
  forEach (decryptElem (decryptValue g true)) elems = (elems', r).
Proof.
  cbn [DecryptRecursive]. rewrite decryptValue_slice.
  destruct (forEach _ elems) as [? ?]. by intros [= <- <-].
Qed.

End EncryptFacts.

(** C2: the encrypt pass does not visit the elements of a slice.  Whatever
    the elements are (structs, pointers to structs, ...), [encryptModel]
    returns [nil] and leaves every tagged field of every element as it was,
    through a pointer to the slice or not; [DecryptRecursive] decrypts the
    tagged fields of both kinds of element. *)
Theorem encryptModel_ignores_slices :
  (forall g q_keyID elems src,
      encryptModel g q_keyID (Some (VPtr (Some (VSlice elems)))) src
      = (Some (VPtr (Some (VSlice elems))), Ok tt, src)
      /\ encryptModel g q_keyID (Some (VSlice elems)) src
         = (Some (VSlice elems), Ok tt, src))
  /\ encryptModel Sample.g12 ""
       (Sample.ptrTo (VSlice [Sample.TestUser 0 "User 1" "a@x.com" "" ""]))
       Sample.noise
     = (Sample.ptrTo (VSlice [Sample.TestUser 0 "User 1" "a@x.com" "" ""]),
        Ok tt, Sample.noise)
  /\ DecryptRecursive Sample.g12
       (Sample.ptrTo
          (VSlice [Sample.TestUser 1 "User 1" Sample.token2 "" "";
                   VPtr (Some (Sample.TestUser 2 "User 2" Sample.token1 "" ""))]))
     = (Sample.ptrTo
          (VSlice [Sample.TestUser 1 "User 1" "a@x.com" "" "";
                   VPtr (Some (Sample.TestUser 2 "User 2" "a@x.com" "" ""))]),
        Ok tt).
Proof.
  split; [by intros; split|]. split; [reflexivity|]. vm_compute. reflexivity.
Qed.

(** C7: on the decrypt pass [Decrypt] is consulted only for values that are
    non-empty and contain ['|'] (two registries whose [Decrypt] agree on
    such values give the same pass); a tagged string field holding text
    without ['|'] comes out unchanged and the pass ends as it does without
    that field.  On the encrypt pass every non-empty string in a tagged
    settable field that the loop reaches is replaced by what [Encrypt]
    returns for it, whether or not it contains ['|']. *)
Theorem walker_guard :
  (forall g1 g2,
      (forall s, s <> "" -> Strings.Contains s "|" = true ->
                 Decrypt g1 s = Decrypt g2 s) ->
      forall root, DecryptRecursive g1 root = DecryptRecursive g2 root)
  /\ (forall g pre ft s post,
        Tag_encrypted ft = "true" ->
        Strings.Contains s "|" = false ->
        exists pre' post' r,
          DecryptRecursive g (Some (VPtr (Some (VStruct (pre ++ post)%list))))
          = (Some (VPtr (Some (VStruct (pre' ++ post')%list))), r)
          /\ length pre' = length pre
          /\ DecryptRecursive g
               (Some (VPtr (Some (VStruct (pre ++ (ft, VString s) :: post)%list))))
             = (Some (VPtr (Some
                  (VStruct (pre' ++ (ft, VString s) :: post')%list))), r))
  /\ (forall g q_keyID pre pre' post post' ft s encrypted r src src1 src2 src3,
        exported ft = true ->
        Tag_encrypted ft = "true" ->
        s <> "" ->
        encryptModel g q_keyID (Some (VPtr (Some (VStruct pre)))) src
        = (Some (VPtr (Some (VStruct pre'))), Ok tt, src1) ->
        Encrypt g s (if decide (q_keyID = "") then [] else [q_keyID]) src1
        = (Ok encrypted, src2) ->
        encryptModel g q_keyID (Some (VPtr (Some (VStruct post)))) src2
        = (Some (VPtr (Some (VStruct post'))), r, src3) ->
        encryptModel g q_keyID
          (Some (VPtr (Some (VStruct (pre ++ (ft, VString s) :: post)%list)))) src
        = (Some (VPtr (Some
             (VStruct (pre' ++ (ft, VString encrypted) :: post')%list))),
           r, src3)).
Proof.
  split; [|split].
  - intros g1 g2 Hagree [[| | [target|] | |]|]; cbn [DecryptRecursive];
      by rewrite ?(decryptValue_guard g1 g2 Hagree).
  - intros g pre ft s post Htag Hs. cbn [DecryptRecursive].
    rewrite !decryptValue_struct.
    destruct (forEach_skip (decryptField g (decryptValue g true) true)
                pre post (ft, VString s))
      as (pre' & post' & r & -> & Hlen & ->).
    + unfold decryptField. destruct (negb (true && exported ft)); [done|].
      rewrite decide_True by done. unfold decryptString.
      by rewrite Hs, andb_false_r.
    + by exists pre', post', r.
  - intros g q_keyID pre pre' post post' ft s encrypted r src src1 src2 src3
      Hexp Htag Hs Hpre Henc Hpost.
    apply encryptModel_struct_inv in Hpre, Hpost.
    rewrite encryptModel_struct, forEachWith_app, Hpre. cbn [forEachWith].
    rewrite encryptField_string by done. by rewrite Henc, Hpost.
Qed.

Lemma walker_guard_witness :
  encryptModel Sample.g12 ""
    (Sample.ptrTo (Sample.TestUser 1 "n" "a@x.com" "" "addr")) Sample.noise
  = (Sample.ptrTo (Sample.TestUser 1 "n" Sample.token2 "" "addr"), Ok tt,
     drop 12 Sample.noise)
  /\ exists pre' post' r,
       DecryptRecursive Sample.g12
         (Sample.ptrTo (VStruct [(Sample.plain "Name", VString "n");
                                 (Sample.tagged "Email", VString "a@x.com")]))
       = (Some (VPtr (Some
            (VStruct (pre' ++ (Sample.tagged "Email", VString "a@x.com")
                          :: post')%list))), r).
Proof.
  destruct walker_guard as (_ & Hplain & Hencrypt). split.
  - apply (Hencrypt Sample.g12 ""
             [(Sample.plain "ID", VOther 1); (Sample.plain "Name", VString "n")]
             [(Sample.plain "ID", VOther 1); (Sample.plain "Name", VString "n")]
             [(Sample.tagged "Phone", VString "");
              (Sample.plain "Address", VString "addr")]
             [(Sample.tagged "Phone", VString "");
              (Sample.plain "Address", VString "addr")]
             (Sample.tagged "Email") "a@x.com" Sample.token2 (Ok tt)
             Sample.noise Sample.noise (drop 12 Sample.noise)
             (drop 12 Sample.noise));
      try reflexivity; try discriminate; vm_compute; reflexivity.
  - destruct (Hplain Sample.g12 [(Sample.plain "Name", VString "n")]
                (Sample.tagged "Email") "a@x.com" [])
      as (pre' & post' & r & _ & _ & H); [reflexivity | reflexivity |].
    by exists pre', post', r.
Defined.

(** C8: when [Decrypt] (resp. [Encrypt]) fails on a tagged field, the pass
    returns at once with that error wrapped in the field's name; the fields
    before it keep what the pass wrote into them and the fields after it are
    as they were.  The same holds one level up, for the elements of a slice
    around an element whose traversal fails. *)
Theorem walker_abort :
  (forall g pre pre' ft s post e,
      exported ft = true ->
      Tag_encrypted ft = "true" ->
      s <> "" ->
      Strings.Contains s "|" = true ->
      DecryptRecursive g (Some (VPtr (Some (VStruct pre))))
      = (Some (VPtr (Some (VStruct pre'))), Ok tt) ->
      Decrypt g s = Err e ->
      DecryptRecursive g
        (Some (VPtr (Some (VStruct (pre ++ (ft, VString s) :: post)%list))))
      = (Some (VPtr (Some (VStruct (pre' ++ (ft, VString s) :: post)%list))),
         Err (ErrDecryptField (Name ft) e)))
  /\ (forall g pre pre' fields failed post e,
        DecryptRecursive g (Some (VPtr (Some (VSlice pre))))
        = (Some (VPtr (Some (VSlice pre'))), Ok tt) ->
        DecryptRecursive g (Some (VPtr (Some (VStruct fields))))
        = (Some (VPtr (Some failed)), Err e) ->
        DecryptRecursive g
          (Some (VPtr (Some (VSlice (pre ++ VStruct fields :: post)%list))))
        = (Some (VPtr (Some (VSlice (pre' ++ failed :: post)%list))), Err e))
  /\ (forall g q_keyID pre pre' ft s post e src src1 src2,
        exported ft = true ->
        Tag_encrypted ft = "true" ->
        s <> "" ->
        encryptModel g q_keyID (Some (VPtr (Some (VStruct pre)))) src
        = (Some (VPtr (Some (VStruct pre'))), Ok tt, src1) ->
        Encrypt g s (if decide (q_keyID = "") then [] else [q_keyID]) src1
        = (Err e, src2) ->
        encryptModel g q_keyID
          (Some (VPtr (Some (VStruct (pre ++ (ft, VString s) :: post)%list)))) src
        = (Some (VPtr (Some (VStruct (pre' ++ (ft, VString s) :: post)%list))),
           Err (ErrEncryptField (Name ft) e), src2)).
Proof.
  split; [|split].
  - intros g pre pre' ft s post e Hexp Htag Hs Hc Hpre Hdec.
    apply decryptRecursive_struct_inv in Hpre.
    cbn [DecryptRecursive]. rewrite decryptValue_struct.
    rewrite (forEach_abort _ pre pre' post _ (ft, VString s)
               (ErrDecryptField (Name ft) e) Hpre); [done|].
    unfold decryptField. rewrite Hexp. cbn [andb negb].
    rewrite decide_True by done. unfold decryptString.
    rewrite bool_decide_eq_false_2 by done. by rewrite Hc, Hdec.
  - intros g pre pre' fields failed post e Hpre Hfail.
    apply decryptRecursive_slice_inv in Hpre.
    cbn [DecryptRecursive] in *. rewrite decryptValue_slice.
    rewrite (forEach_abort _ pre pre' post _ failed e Hpre); [done|].
    cbn [decryptElem].
    destruct (decryptValue g true (VStruct fields)) as [? ?].
    by injection Hfail as -> ->.
  - intros g q_keyID pre pre' ft s post e src src1 src2 Hexp Htag Hs Hpre Henc.
    apply encryptModel_struct_inv in Hpre.
    rewrite encryptModel_struct, forEachWith_app, Hpre. cbn [forEachWith].
    rewrite encryptField_string by done. by rewrite Henc.
Qed.

Lemma walker_abort_witness :
  DecryptRecursive Sample.g2
    (Sample.ptrTo (Sample.TestUser 1 "n" Sample.token2 Sample.token1 "1|x"))
  = (Sample.ptrTo (Sample.TestUser 1 "n" "a@x.com" Sample.token1 "1|x"),
     Err (ErrDecryptField "Phone" (ErrKeyNotFound "1" ["2"])))
  /\ encryptModel Sample.g12 "3"
       (Sample.ptrTo (Sample.TestUser 1 "n" "a@x.com" "555" "addr")) Sample.noise
     = (Sample.ptrTo (Sample.TestUser 1 "n" "a@x.com" "555" "addr"),
        Err (ErrEncryptField "Email" (ErrEncryptKeyNotFound "3")), Sample.noise).
Proof.
  destruct walker_abort as (Hdecrypt & _ & Hencrypt). split.
  - apply (Hdecrypt Sample.g2
             [(Sample.plain "ID", VOther 1); (Sample.plain "Name", VString "n");
              (Sample.tagged "Email", VString Sample.token2)]
             [(Sample.plain "ID", VOther 1); (Sample.plain "Name", VString "n");
              (Sample.tagged "Email", VString "a@x.com")]
             (Sample.tagged "Phone") Sample.token1
             [(Sample.plain "Address", VString "1|x")]
             (ErrKeyNotFound "1" ["2"]));
      try reflexivity; try discriminate; vm_compute; reflexivity.
  - apply (Hencrypt Sample.g12 "3"
             [(Sample.plain "ID", VOther 1); (Sample.plain "Name", VString "n")]
             [(Sample.plain "ID", VOther 1); (Sample.plain "Name", VString "n")]
             (Sample.tagged "Email") "a@x.com"
             [(Sample.tagged "Phone", VString "555");
              (Sample.plain "Address", VString "addr")]
             (ErrEncryptKeyNotFound "3") Sample.noise Sample.noise Sample.noise);
      try reflexivity; try discriminate; vm_compute; reflexivity.
Defined.

Lemma GetKeyIDFromEncryptedData_total_witness :
  exists id,
    GetKeyIDFromEncryptedData "2|AAAA|BBBB" = Ok id
    /\ ("2|AAAA|BBBB" = "" -> id = "")
    /\ (Strings.Contains "2|AAAA|BBBB" "|" = true ->
        Strings.Contains id "|" = false
        /\ exists rest, "2|AAAA|BBBB" = id +:+ "|" +:+ rest)
    /\ (Strings.Contains "2|AAAA|BBBB" "|" = false -> id = "2|AAAA|BBBB")
    /\ 1 <= length (Strings.SplitN "2|AAAA|BBBB" "|" 2).
Proof. exact (GetKeyIDFromEncryptedData_total "2|AAAA|BBBB"). Defined.

(** * Further properties *)

(** ** The registry *)

Section RegistryMore.

Variable NewGCM : list byte -> AEAD.

Lemma initKeys_value (entries : list (string * list byte))
    (acc ks : gmap string Key) (id : string) (k : Key) :
  initKeys NewGCM entries acc = Ok ks ->
  ks !! id = Some k ->
  acc !! id = Some k \/ (id, Value k) ∈ entries.
Proof.
  revert acc. induction entries as [|[keyID keyBytes] rest IH]; intros acc.
  - intros [= <-]. auto.
  - cbn [initKeys]. destruct (newKey NewGCM keyID keyBytes) as [key| |] eqn:E;
      [|discriminate..].
    intros Hks Hk. destruct (IH _ Hks Hk) as [Hacc | Hin].
    + destruct (decide (keyID = id)) as [<- | Hne].
      * rewrite lookup_insert_eq in Hacc. injection Hacc as <-.
        apply newKey_Ok in E as [_ ->]. right. left.
      * rewrite lookup_insert_ne in Hacc by done. by left.
    + right. by right.
Qed.

(** The loop fails exactly when it meets a key that is not 32 bytes long,
    and reports that key. *)
Lemma initKeys_outcome (entries : list (string * list byte))
    (acc : gmap string Key) :
  match initKeys NewGCM entries acc with
  | Ok _ => Forall (fun e => length e.2 = 32) entries
  | Err e =>
      exists id kb, (id, kb) ∈ entries /\ length kb <> 32
                    /\ e = ErrInitKey id (ErrKeyLength (length kb))
  | Panic _ => False
  end.
Proof.
  revert acc. induction entries as [|[keyID keyBytes] rest IH]; intros acc.
  - cbn. constructor.
  - cbn [initKeys]. unfold newKey. case_decide as Hlen.
    + specialize (IH (<[keyID := {| ID := keyID; Value := keyBytes;
                                     cipher := NewGCM keyBytes |}]> acc)).
      destruct (initKeys NewGCM rest _) as [ks|e|m]; [| |done].
      * by constructor.
      * destruct IH as (id & kb & Hin & Hne & ->). exists id, kb.
        split; [by right | done].
    + exists keyID, keyBytes. split; [left | done].
Qed.

End RegistryMore.

(** X1: [New] checks, in this order, that there is a key, that the default
    identifier is not empty, that it names a configured key and that every
    key has 32 bytes; it returns a registry exactly when all four hold, and
    otherwise the error of the first check that fails, which for a key of
    the wrong length names that key and its length.  It never panics. *)
Theorem New_validation (NewGCM : list byte -> AEAD) (config : Config) :
  (Keys config = ∅ -> New NewGCM config = Err ErrNoKeys)
  /\ (Keys config <> ∅ -> DefaultKeyID config = "" ->
      New NewGCM config = Err ErrNoDefaultKey)
  /\ (Keys config <> ∅ -> DefaultKeyID config <> "" ->
      Keys config !! DefaultKeyID config = None ->
      New NewGCM config = Err (ErrDefaultKeyNotFound (DefaultKeyID config)))
  /\ (Keys config <> ∅ -> DefaultKeyID config <> "" ->
      is_Some (Keys config !! DefaultKeyID config) ->
      (exists id kb, Keys config !! id = Some kb /\ length kb <> 32) ->
      exists id kb, Keys config !! id = Some kb /\ length kb <> 32
        /\ New NewGCM config
           = Err (ErrInitKey id (ErrKeyLength (length kb))))
  /\ ((exists g, New NewGCM config = Ok g)
      <-> Keys config <> ∅ /\ DefaultKeyID config <> ""
          /\ is_Some (Keys config !! DefaultKeyID config)
          /\ forall id kb, Keys config !! id = Some kb -> length kb = 32).
Proof.
  assert (Hsize : Keys config <> ∅ -> size (Keys config) <> 0)
    by (intros H Hs; by apply map_size_empty_iff in Hs).
  pose proof (initKeys_outcome NewGCM (map_to_list (Keys config)) ∅) as Hloop.
  split; [|split; [|split; [|split]]].
  - intros He. unfold New. rewrite decide_True; [done|].
    rewrite He. apply map_size_empty.
  - intros Hne Hdef. unfold New. rewrite decide_False by auto.
    by rewrite decide_True.
  - intros Hne Hdef Hnone. unfold New. rewrite !decide_False by auto.
    by rewrite Hnone.
  - intros Hne Hdef [kb0 Hsome] (id & kb & Hkb & Hlen). unfold New.
    rewrite !decide_False by auto. rewrite Hsome.
    destruct (initKeys NewGCM _ ∅) as [ks|e|m]; [| |done].
    + exfalso. rewrite Forall_forall in Hloop.
      apply Hlen, (Hloop (id, kb)). by apply elem_of_map_to_list.
    + destruct Hloop as (id' & kb' & Hin & Hne' & ->).
      exists id', kb'. apply elem_of_map_to_list in Hin. by repeat split.
  - split.
    + intros [g Hg]. unfold New in Hg.
      case_decide as Hs; [discriminate|]. case_decide as Hd; [discriminate|].
      destruct (Keys config !! DefaultKeyID config) as [kb0|] eqn:Hsome;
        [|discriminate].
      destruct (initKeys NewGCM _ ∅) as [ks|e|m]; [|discriminate..].
      split; [intros He; by rewrite He, map_size_empty in Hs|].
      split; [done|]. split; [by eexists|].
      intros id kb Hkb. rewrite Forall_forall in Hloop.
      apply (Hloop (id, kb)). by apply elem_of_map_to_list.
    + intros (Hne & Hdef & Hsome & Hall). by apply New_total.
Qed.

Lemma New_validation_witness :
  New Sample.toyGCM
    {| Keys := <["1" := Sample.K1]> (<["9" := [x00; x01]]> ∅);
       DefaultKeyID := "1" |}
  = Err (ErrInitKey "9" (ErrKeyLength 2)).
Proof.
  destruct (New_validation Sample.toyGCM
              {| Keys := <["1" := Sample.K1]> (<["9" := [x00; x01]]> ∅);
                 DefaultKeyID := "1" |})
    as (_ & _ & _ & Hbad & _).
  destruct Hbad as (id & kb & Hkb & Hlen & ->).
  - cbn. intros H. apply (f_equal (lookup "1")) in H. discriminate H.
  - discriminate.
  - by eexists.
  - exists "9", [x00; x01]. split; [reflexivity | cbn; lia].
  - cbn in Hkb. destruct (decide (id = "1")) as [-> | H1].
    + rewrite lookup_insert_eq in Hkb. injection Hkb as <-. by cbn in Hlen.
    + rewrite lookup_insert_ne in Hkb by done.
      destruct (decide (id = "9")) as [-> | H9].
      * rewrite lookup_insert_eq in Hkb. by injection Hkb as <-.
      * by rewrite lookup_insert_ne, lookup_empty in Hkb.
Defined.

(** X2: the registry [New] returns holds, under each configured
    identifier and under no other, the key made of that identifier, the
    configured bytes and the cipher built from them, and its default key is
    the configured one. *)
Theorem New_registry_contents (NewGCM : list byte -> AEAD) (config : Config)
    (g : GovaultDB) :
  New NewGCM config = Ok g ->
  defaultKey g = DefaultKeyID config
  /\ forall id,
       keys g !! id =
         (fun kb => {| ID := id; Value := kb; cipher := NewGCM kb |})
           <$> Keys config !! id.
Proof.
  intros Hnew. split; [by apply (New_registered NewGCM config g "")|].
  intros id.
  destruct (New_registered NewGCM config g id Hnew) as [_ Hreg].
  destruct (New_registry_ok NewGCM config g Hnew) as [Hvalid _].
  destruct (keys g !! id) as [k|] eqn:Hk.
  - destruct (Hvalid _ _ Hk) as (Hid & _ & Hc).
    assert (Hcfg : Keys config !! id = Some (Value k)).
    { revert Hnew Hk. unfold New. repeat case_decide; try discriminate.
      destruct (Keys config !! DefaultKeyID config); [|discriminate].
      destruct (initKeys NewGCM _ ∅) as [ks| |] eqn:Hks; [|discriminate..].
      cbn. intros [= <-] Hk. cbn in Hk.
      destruct (initKeys_value NewGCM _ _ _ _ _ Hks Hk) as [He | Hin].
      - by rewrite lookup_empty in He.
      - by apply elem_of_map_to_list in Hin. }
    rewrite Hcfg. cbn. f_equal. destruct k; cbn in *. by subst.
  - destruct (Keys config !! id) as [kb|] eqn:Hkb; [|done].
    destruct Hreg as [_ Hreg]. destruct Hreg as [? [=]]. by eexists.
Qed.

Lemma New_registry_contents_witness :
  defaultKey Sample.g12 = "2"
  /\ forall id,
       keys Sample.g12 !! id =
         (fun kb => {| ID := id; Value := kb; cipher := Sample.toyGCM kb |})
           <$> Keys Sample.config12 !! id.
Proof.
  apply (New_registry_contents Sample.toyGCM Sample.config12 Sample.g12).
  vm_compute; reflexivity.
Defined.

(** X3: for a registry built by [New], [GetKeyIDs] is the list of the
    configured identifiers, each once, in ascending order, and
    [GetDefaultKeyID] is one of them. *)
Theorem GetKeyIDs_of_New (NewGCM : list byte -> AEAD) (config : Config)
    (g : GovaultDB) :
  New NewGCM config = Ok g ->
  (forall id, id ∈ GetKeyIDs g <-> is_Some (Keys config !! id))
  /\ NoDup (GetKeyIDs g)
  /\ Sorted string_le (GetKeyIDs g)
  /\ GetDefaultKeyID g ∈ GetKeyIDs g.
Proof.
  intros Hnew. destruct (GetKeyIDs_spec g) as [Hin Hsorted].
  assert (Hids : forall id, id ∈ GetKeyIDs g <-> is_Some (Keys config !! id)).
  { intros id. rewrite Hin.
    by destruct (New_registered NewGCM config g id Hnew) as [_ ?]. }
  split; [done|]. split; [|split; [done|]].
  - unfold GetKeyIDs. rewrite merge_sort_Permutation.
    apply NoDup_fst_map_to_list.
  - apply Hin. by destruct (New_registry_ok NewGCM config g Hnew) as [_ ?].
Qed.

Lemma GetKeyIDs_of_New_witness :
  (forall id, id ∈ GetKeyIDs Sample.g12
              <-> is_Some (Keys Sample.config12 !! id))
  /\ NoDup (GetKeyIDs Sample.g12)
  /\ Sorted string_le (GetKeyIDs Sample.g12)
  /\ GetDefaultKeyID Sample.g12 ∈ GetKeyIDs Sample.g12.
Proof.
  apply (GetKeyIDs_of_New Sample.toyGCM Sample.config12 Sample.g12).
  vm_compute; reflexivity.
Defined.


(** ** The engine *)

Lemma append_cancel_l (a x y : string) : a +:+ x = a +:+ y -> x = y.
Proof.
  induction a as [|c a IH]; [done|]. rewrite !append_cons. intros [= H]. auto.
Qed.

(** What precedes the first separator is determined by the whole string. *)
Lemma cut_unique (a1 a2 b1 b2 : string) :
  Strings.Index a1 "|" = None -> Strings.Index a2 "|" = None ->
  a1 +:+ "|" +:+ b1 = a2 +:+ "|" +:+ b2 -> a1 = a2.
Proof.
  intros H1 H2 Heq.
  pose proof (Index_cut a1 b1 H1) as I1. pose proof (Index_cut a2 b2 H2) as I2.
  rewrite Heq, I2 in I1. injection I1 as Hlen.
  rewrite <- (substring_append a1 ("|" +:+ b1)), <- (substring_append a2 ("|" +:+ b2)).
  by rewrite Heq, Hlen.
Qed.

Lemma EncodeToString_inj (x y : list byte) :
  Base64.EncodeToString x = Base64.EncodeToString y -> x = y.
Proof.
  intros H. apply (f_equal Base64.DecodeString) in H.
  rewrite !DecodeString_EncodeToString in H. by injection H.
Qed.

Lemma wireToken_Contains (id : string) (nonce ct : list byte) :
  Strings.Contains (wireToken id nonce ct) "|" = true.
Proof.
  unfold Strings.Contains, wireToken.
  by destruct (Index_sep_Some id
                 (Base64.EncodeToString nonce +:+ "|" +:+ Base64.EncodeToString ct))
    as [m ->].
Qed.

(** X4: two calls of [Encrypt] on the same plaintext under the same key
    whose nonces differ return different tokens. *)
Theorem Encrypt_distinct_nonces (g : GovaultDB) (plaintext : string)
    (keyID : list string) (src1 src2 : entropy) (key : Key) :
  plaintext <> "" ->
  keys g !! targetKeyID g keyID = Some key ->
  NonceSize (cipher key) <= length src1 ->
  NonceSize (cipher key) <= length src2 ->
  take (NonceSize (cipher key)) src1 <> take (NonceSize (cipher key)) src2 ->
  (Encrypt g plaintext keyID src1).1 <> (Encrypt g plaintext keyID src2).1.
Proof.
  intros Hp Hkey H1 H2 Hne.
  rewrite !(Encrypt_wireToken g plaintext keyID _ key) by done. cbn [fst].
  intros [= Heq]. unfold wireToken in Heq.
  apply append_cancel_l in Heq. change ("|" +:+ ?x) with ("" +:+ "|" +:+ x) in Heq.
  apply (append_cancel_l "|") in Heq.
  apply cut_unique in Heq; try apply EncodeToString_no_sep.
  by apply EncodeToString_inj in Heq.
Qed.

Lemma Encrypt_distinct_nonces_witness :
  (Encrypt Sample.g12 "a@x.com" [] Sample.noise).1
  <> (Encrypt Sample.g12 "a@x.com" [] (drop 12 Sample.noise)).1.
Proof.
  apply (Encrypt_distinct_nonces Sample.g12 "a@x.com" [] Sample.noise
           (drop 12 Sample.noise) (Sample.key "2" Sample.K2)).
  - discriminate.
  - vm_compute; reflexivity.
  - vm_compute; lia.
  - vm_compute; lia.
  - vm_compute. discriminate.
Defined.

(** X5: on a well-formed token of a registered key whose nonce segment
    decodes to a number of bytes other than the cipher's nonce size,
    [Decrypt] does not return an error: the call of [Open] panics. *)
Theorem Decrypt_wrong_nonce_size_panics (g : GovaultDB) (id : string)
    (key : Key) (nonce ciphertext : list byte) :
  Strings.Contains id "|" = false ->
  keys g !! id = Some key ->
  length nonce <> NonceSize (cipher key) ->
  Decrypt g (id +:+ "|" +:+ Base64.EncodeToString nonce +:+ "|" +:+
             Base64.EncodeToString ciphertext)
  = Panic "crypto/cipher: incorrect nonce length given to GCM".
Proof.
  intros Hid Hkey Hlen.
  pose proof (Decrypt_wireToken g id key nonce ciphertext
                (Contains_false_Index _ Hid) Hkey) as H.
  unfold wireToken in H. rewrite H. unfold Open. by rewrite decide_False.
Qed.

Lemma Decrypt_wrong_nonce_size_panics_witness :
  Decrypt Sample.g12 "1|AAAA|AQAAAAAAAAAAAAAAAGFAeC5jb20="
  = Panic "crypto/cipher: incorrect nonce length given to GCM".
Proof.
  apply (Decrypt_wrong_nonce_size_panics Sample.g12 "1"
           (Sample.key "1" Sample.K1) [x00; x00; x00]
           (x01 :: Sample.nonce0 ++ list_byte_of_string "a@x.com")%list).
  - vm_compute; reflexivity.
  - vm_compute; reflexivity.
  - vm_compute; lia.
Defined.

(** X6: [EncryptValue] of a raw query encrypts under the query's key when
    it has one and under the default key otherwise; what it returns
    decrypts to the plaintext and, for a non-empty plaintext, carries the
    identifier of that key. *)
Theorem EncryptValue_roundtrip (NewGCM : list byte -> AEAD) (config : Config)
    (g : GovaultDB) (q_keyID plaintext : string) (src : entropy) (key : Key) :
  (forall kb, length kb = 32 -> AEAD_correct (NewGCM kb)) ->
  New NewGCM config = Ok g ->
  let id := if decide (q_keyID = "") then defaultKey g else q_keyID in
  keys g !! id = Some key ->
  Strings.Contains id "|" = false ->
  NonceSize (cipher key) <= length src ->
  exists token src',
    BunRawQuery.EncryptValue g q_keyID plaintext src = (Ok token, src')
    /\ Decrypt g token = Ok plaintext
    /\ (plaintext <> "" -> GetKeyIDFromEncryptedData token = Ok id).
Proof.
  intros Hgcm Hnew id Hkey Hid Hsrc. unfold BunRawQuery.EncryptValue.
  destruct (decide (plaintext = "")) as [-> | Hp].
  { by exists "", src. }
  assert (Hcall : exists keyID,
             targetKeyID g keyID = id
             /\ (if decide (q_keyID <> "") then Encrypt g plaintext [q_keyID] src
                 else Encrypt g plaintext [] src) = Encrypt g plaintext keyID src).
  { unfold id. destruct (decide (q_keyID = "")) as [-> | Hq].
    - exists []. by rewrite decide_False by auto.
    - exists [q_keyID]. rewrite decide_True by done. split; [|done].
      cbn. by rewrite decide_False. }
  destruct Hcall as (keyID & Htarget & ->).
  rewrite (Encrypt_wireToken g plaintext keyID src key) by (by rewrite ?Htarget).
  rewrite Htarget. eexists _, _. split; [reflexivity|].
  apply New_registry_ok in Hnew as [Hvalid _].
  destruct (Hvalid _ _ Hkey) as (_ & Hlen & Hcipher). split.
  - apply Decrypt_sealed; [by apply Contains_false_Index | done | |].
    + rewrite Hcipher. by apply Hgcm.
    + rewrite length_take. lia.
  - intros _. by apply GetKeyID_wireToken, Contains_false_Index.
Qed.

Lemma EncryptValue_roundtrip_witness :
  exists token src',
    BunRawQuery.EncryptValue Sample.g12 "1" "a@x.com" Sample.noise
    = (Ok token, src')
    /\ Decrypt Sample.g12 token = Ok "a@x.com"
    /\ ("a@x.com" <> "" -> GetKeyIDFromEncryptedData token = Ok "1").
Proof.
  apply (EncryptValue_roundtrip Sample.toyGCM Sample.config12 Sample.g12
           "1" "a@x.com" Sample.noise (Sample.key "1" Sample.K1)).
  - apply toyGCM_correct.
  - vm_compute; reflexivity.
  - vm_compute; reflexivity.
  - vm_compute; reflexivity.
  - vm_compute; lia.
Defined.


(** ** The walkers *)

Section LoopMore.

Context {A : Type}.

Lemma forEach_id (step : A -> A * result unit) (l : list A) :
  Forall (fun x => step x = (x, Ok tt)) l -> forEach step l = (l, Ok tt).
Proof.
  induction 1 as [|x l Hx _ IH]; cbn [forEach]; [done|]. by rewrite Hx, IH.
Qed.

(** What every step preserves, the loop preserves. *)
Lemma forEach_preserves {B : Type} (h : A -> B) (step : A -> A * result unit)
    (l : list A) :
  Forall (fun x => h (step x).1 = h x) l ->
  map h (forEach step l).1 = map h l.
Proof.
  induction 1 as [|x l Hx _ IH]; cbn [forEach]; [done|].
  destruct (step x) as [x' [[]| |]]; cbn [fst] in Hx.
  - destruct (forEach step l) as [l' r]. cbn [fst map] in *. by rewrite Hx, IH.
  - cbn. by rewrite Hx.
  - cbn. by rewrite Hx.
Qed.

Lemma forEachWith_preserves {B S : Type} (h : A -> B)
    (step : A -> S -> A * result unit * S) (l : list A) (st : S) :
  Forall (fun x => forall st, h (step x st).1.1 = h x) l ->
  map h (forEachWith step l st).1.1 = map h l.
Proof.
  intros H. revert st. induction H as [|x l Hx _ IH]; intros st;
    cbn [forEachWith]; [done|].
  specialize (Hx st). destruct (step x st) as [[x' [[]| |]] st']; cbn [fst] in Hx.
  - specialize (IH st'). destruct (forEachWith step l st') as [[l' r] st''].
    cbn [fst map] in *. by rewrite Hx, IH.
  - cbn. by rewrite Hx.
  - cbn. by rewrite Hx.
Qed.

End LoopMore.

(** X7: a struct handed over by value, not through a pointer, is left as it
    is by both passes, which return [nil]: none of its fields can be set.
    Its tagged fields stay in plaintext on the write path and encrypted on
    the read path. *)
Theorem struct_by_value_untouched (g : GovaultDB) (q_keyID : string)
    (fields : list (StructField * value)) (src : entropy) :
  encryptModel g q_keyID (Some (VStruct fields)) src
  = (Some (VStruct fields), Ok tt, src)
  /\ DecryptRecursive g (Some (VStruct fields)) = (Some (VStruct fields), Ok tt)
  /\ BunSelectQuery.decryptModel g (Some (VStruct fields))
     = (Some (VStruct fields), Ok tt).
Proof.
  split; [|split].
  - cbn [encryptModel].
    enough (H : forEachWith (encryptField g q_keyID false) fields src
                = (fields, Ok tt, src)) by (by rewrite H).
    induction fields as [|[ft fv] fields IH]; [done|].
    cbn [forEachWith encryptField andb negb]. by rewrite IH.
  - cbn [DecryptRecursive]. rewrite decryptValue_struct.
    rewrite forEach_id; [done|]. apply Forall_forall. by intros [ft fv] _.
  - cbn [BunSelectQuery.decryptModel BunSelectQuery.decryptStruct].
    rewrite forEach_id; [done|]. apply Forall_forall. by intros [ft fv] _.
Qed.

Lemma decryptString_shape (g : GovaultDB) (ft : StructField) (s : string) :
  exists s', (decryptString g ft s).1 = (ft, VString s').
Proof.
  unfold decryptString.
  destruct (negb (bool_decide (s = "")) && Strings.Contains s "|"); [|by eexists].
  destruct (Decrypt g s); by eexists.
Qed.

Lemma blank_struct (fields : list (StructField * value)) :
  blank (VStruct fields) = VStruct (map blankField fields).
Proof.
  cbn [blank]. f_equal. apply map_ext. by intros [ft []].
Qed.

Lemma decryptValue_blank (g : GovaultDB) (v : value) (addressable : bool) :
  blank (decryptValue g addressable v).1 = blank v.
Proof.
  revert addressable.
  enough (H : (forall addressable,
                 blank (decryptValue g addressable v).1 = blank v)
              /\ (forall target, v = VPtr (Some target) ->
                    blank (decryptValue g true target).1 = blank target))
    by apply H.
  induction v as [s | n | | target [IH _] | elems IH | fields IH]
    using value_induction.
  - by split.
  - by split.
  - by split.
  - split; [done|]. by intros ? [= <-].
  - split; [|done]. intros addressable. rewrite decryptValue_slice.
    pose proof (forEach_preserves blank (decryptElem (decryptValue g true)) elems)
      as Hloop.
    destruct (forEach _ elems) as [elems' r]. cbn [fst blank] in *.
    rewrite Hloop; [done|]. eapply Forall_impl; [exact IH|].
    intros e [He Hptr]. cbn beta.
    destruct e as [| | [target|] | |]; cbn [decryptElem]; try done.
    + specialize (Hptr target eq_refl).
      destruct (decryptValue g true target) as [t' r']. cbn [fst] in *.
      cbn [blank]. by rewrite Hptr.
  - split; [|done]. intros addressable. rewrite decryptValue_struct.
    pose proof (forEach_preserves blankField
                  (decryptField g (decryptValue g true) addressable) fields)
      as Hloop.
    destruct (forEach _ fields) as [fields' r]. cbn [fst] in *.
    rewrite !blank_struct, Hloop; [done|]. eapply Forall_impl; [exact IH|].
    intros [ft fv] [Hf Hptr]. cbn [snd] in *. cbn beta.
    unfold decryptField.
    destruct (addressable && exported ft) eqn:Hset; cbn [negb]; [|done].
    apply andb_prop in Hset as [_ Hexp].
    case_decide as Htag.
    + destruct fv; try done.
      destruct (decryptString_shape g ft s) as [s' ->].
      unfold blankField. cbn [fst snd]. by rewrite Hexp, bool_decide_eq_true_2.
    + destruct fv as [| | [target|] | elems | fs]; try done.
      * specialize (Hptr target eq_refl).
        destruct (decryptValue g true target) as [t' r']. cbn [fst] in *.
        unfold blankField. cbn [fst snd blank]. by rewrite Hptr.
      * specialize (Hf true). rewrite decryptValue_slice in *.
        destruct (forEach _ elems) as [elems' r']. cbn [fst] in *.
        unfold blankField. cbn [fst snd]. by rewrite Hf.
      * specialize (Hf true). rewrite decryptValue_struct in *.
        destruct (forEach _ fs) as [fs' r']. cbn [fst] in *.
        unfold blankField. cbn [fst snd]. by rewrite Hf.
Qed.

Lemma encryptField_blank (g : GovaultDB) (q_keyID : string) (addressable : bool)
    (f : StructField * value) (src : entropy) :
  blankField (encryptField g q_keyID addressable f src).1.1 = blankField f.
Proof.
  destruct f as [ft fv]. unfold encryptField.
  destruct (addressable && exported ft) eqn:Hset; cbn [negb]; [|done].
  apply andb_prop in Hset as [_ Hexp].
  case_decide as Htag; [|done]. destruct fv; try done.
  case_decide; [done|].
  assert (Hcase : forall r : result string * entropy,
             blankField
               (let '(r0, src') := r in
                match r0 with
                | Ok encrypted => ((ft, VString encrypted), Ok tt, src')
                | Err e => ((ft, VString s), Err (ErrEncryptField (Name ft) e), src')
                | Panic m => ((ft, VString s), Panic m, src')
                end).1.1 = blankField (ft, VString s)).
  { intros [[t|e|m] src']; try done.
    unfold blankField. cbn [fst snd]. by rewrite Hexp, bool_decide_eq_true_2. }
  apply Hcase.
Qed.

(** X8: whatever a pass does, and whether or not it fails on the way, it
    changes nothing but the contents of exported tagged string fields: the
    shape of the value, the fields' names and tags, every untagged field,
    every unexported field and every tagged field that is not a string
    come out as they went in. *)
Theorem walkers_change_tagged_strings_only (g : GovaultDB) :
  (forall root, blank <$> (DecryptRecursive g root).1 = blank <$> root)
  /\ (forall q_keyID model src,
        blank <$> (encryptModel g q_keyID model src).1.1 = blank <$> model).
Proof.
  split.
  - intros [[| | [target|] | elems | fields]|]; try done; cbn [DecryptRecursive].
    + pose proof (decryptValue_blank g target true) as H.
      destruct (decryptValue g true target) as [t' r]. cbn [fst] in *.
      cbn. by rewrite H.
    + pose proof (decryptValue_blank g (VSlice elems) false) as H.
      destruct (decryptValue g false (VSlice elems)) as [v' r]. cbn [fst] in *.
      cbn [fmap option_fmap option_map]. by rewrite H.
    + pose proof (decryptValue_blank g (VStruct fields) false) as H.
      destruct (decryptValue g false (VStruct fields)) as [v' r]. cbn [fst] in *.
      cbn [fmap option_fmap option_map]. by rewrite H.
  - intros q_keyID [[| | [[| | | |fields]|] | |fields]|] src; try done;
      cbn [encryptModel].
    + pose proof (forEachWith_preserves blankField
                    (encryptField g q_keyID true) fields src) as H.
      destruct (forEachWith _ fields src) as [[fields' r] src']. cbn [fst] in *.
      cbn [fmap option_fmap option_map].
      change (blank (VPtr (Some (VStruct fields'))))
        with (VPtr (Some (blank (VStruct fields')))).
      change (blank (VPtr (Some (VStruct fields))))
        with (VPtr (Some (blank (VStruct fields)))).
      rewrite !blank_struct, H; [done|]. apply Forall_forall.
      intros f _ st. apply encryptField_blank.
    + pose proof (forEachWith_preserves blankField
                    (encryptField g q_keyID false) fields src) as H.
      destruct (forEachWith _ fields src) as [[fields' r] src']. cbn [fst] in *.
      cbn [fmap option_fmap option_map].
      rewrite !blank_struct, H; [done|]. apply Forall_forall.
      intros f _ st. apply encryptField_blank.
Qed.


Lemma decryptValue_tokenFree (g : GovaultDB) (v : value) (addressable : bool) :
  tokenFree v = true -> decryptValue g addressable v = (v, Ok tt).
Proof.
  revert addressable.
  enough (H : (forall addressable, tokenFree v = true ->
                 decryptValue g addressable v = (v, Ok tt))
              /\ (forall target, v = VPtr (Some target) ->
                    tokenFree target = true ->
                    decryptValue g true target = (target, Ok tt)))
    by apply H.
  induction v as [s | n | | target [IH _] | elems IH | fields IH]
    using value_induction.
  - by split.
  - by split.
  - by split.
  - split; [done|]. intros ? [= <-]. apply IH.
  - split; [|done]. intros addressable Hfree. rewrite decryptValue_slice.
    rewrite forEach_id; [done|].
    cbn [tokenFree] in Hfree. rewrite forallb_forall in Hfree.
    rewrite Forall_forall in IH |- *. intros e He.
    destruct (IH e He) as [Hv Hptr].
    specialize (Hfree e ltac:(by apply list_elem_of_In)).
    destruct e as [| | [target|] | |]; cbn [decryptElem]; try done.
    + by rewrite (Hptr target).
    + by apply Hv.
  - split; [|done]. intros addressable Hfree. rewrite decryptValue_struct.
    rewrite forEach_id; [done|].
    cbn [tokenFree] in Hfree. rewrite forallb_forall in Hfree.
    rewrite Forall_forall in IH |- *. intros [ft fv] Hf.
    destruct (IH _ Hf) as [Hv Hptr]. cbn [snd] in *.
    specialize (Hfree _ ltac:(by apply list_elem_of_In)). cbn beta iota in Hfree.
    unfold decryptField. destruct (negb (addressable && exported ft)); [done|].
    case_decide as Htag.
    + destruct fv; try done. unfold decryptString.
      rewrite bool_decide_eq_true_2 in Hfree by done. cbn in Hfree.
      apply negb_true_iff in Hfree. by rewrite Hfree, andb_false_r.
    + destruct fv as [| | [target|] | |]; try done.
      * by rewrite (Hptr target).
      * by rewrite Hv.
      * by rewrite Hv.
Qed.

(** X9: a read pass over data none of whose tagged string fields contains
    ['|'] (rows that were never encrypted) returns [nil] and changes
    nothing, whatever the registry holds. *)
Theorem DecryptRecursive_plain_data (g : GovaultDB) (v : value) :
  tokenFree v = true ->
  DecryptRecursive g (Some v) = (Some v, Ok tt).
Proof.
  intros Hfree. destruct v as [| | [target|] | |]; cbn [DecryptRecursive];
    try done.
  - rewrite decryptValue_tokenFree; [done | exact Hfree].
  - rewrite decryptValue_tokenFree; [done | exact Hfree].
  - rewrite decryptValue_tokenFree; [done | exact Hfree].
Qed.

Lemma DecryptRecursive_plain_data_witness :
  DecryptRecursive Sample.g2
    (Sample.ptrTo (VSlice [Sample.TestUser 1 "n" "a@x.com" "555" "x|y"]))
  = (Sample.ptrTo (VSlice [Sample.TestUser 1 "n" "a@x.com" "555" "x|y"]), Ok tt).
Proof.
  apply (DecryptRecursive_plain_data Sample.g2
           (VPtr (Some (VSlice [Sample.TestUser 1 "n" "a@x.com" "555" "x|y"])))).
  vm_compute; reflexivity.
Defined.

Section RoundTrip.

Variable NewGCM : list byte -> AEAD.
Hypothesis NewGCM_correct : forall kb, length kb = 32 -> AEAD_correct (NewGCM kb).

Variables (g : GovaultDB) (q_keyID : string) (key : Key).

(** The key argument [encryptModel] passes to [Encrypt]. *)
Variable keyID : list string.
Hypothesis keyID_eq : keyID = if decide (q_keyID = "") then [] else [q_keyID].

Hypothesis g_ok : registry_ok NewGCM g.
Hypothesis key_registered : keys g !! targetKeyID g keyID = Some key.
Hypothesis key_plain : Strings.Contains (targetKeyID g keyID) "|" = false.

(** One field: what the write loop makes of it, the read loop undoes. *)
Lemma field_roundtrip (recurse : value -> value * result unit)
    (f : StructField * value) (src : entropy) :
  Tag_encrypted f.1 = "true" \/ scalar f.2 = true ->
  NonceSize (cipher key) <= length src ->
  exists f' src',
    encryptField g q_keyID true f src = (f', Ok tt, src')
    /\ length src - NonceSize (cipher key) <= length src'
    /\ decryptField g recurse true f' = (f, Ok tt).
Proof using NewGCM_correct g_ok keyID_eq key_registered key_plain.
  destruct f as [ft fv]. cbn [fst snd]. intros Hflat Hsrc.
  assert (Hskip : decryptField g recurse true (ft, fv) = ((ft, fv), Ok tt) ->
                  exists f' src',
                    ((ft, fv), Ok tt, src) = (f', Ok tt, src')
                    /\ length src - NonceSize (cipher key) <= length src'
                    /\ decryptField g recurse true f' = ((ft, fv), Ok tt)).
  { intros H. exists (ft, fv), src. split; [done|]. split; [lia | done]. }
  unfold encryptField. cbn [andb].
  destruct (exported ft) eqn:Hexp; cbn [negb].
  2:{ apply Hskip. unfold decryptField. by rewrite Hexp. }
  destruct (decide (Tag_encrypted ft = "true")) as [Htag|Htag].
  2:{ apply Hskip. unfold decryptField. rewrite Hexp. cbn [andb negb].
      rewrite decide_False by done. destruct Hflat as [? | Hs]; [done|].
      by destruct fv as [| | [|] | |]. }
  destruct fv as [s| | | |].
  2-5: apply Hskip; unfold decryptField; rewrite Hexp; cbn [andb negb];
       by rewrite decide_True.
  destruct (decide (s = "")) as [Hs|Hs].
  { apply Hskip. unfold decryptField. rewrite Hexp. cbn [andb negb].
    rewrite decide_True by done. unfold decryptString. subst s.
    by rewrite bool_decide_eq_true_2. }
  assert (Henc : (if decide (q_keyID = "") then Encrypt g s [] src
                  else Encrypt g s [q_keyID] src) = Encrypt g s keyID src).
  { rewrite keyID_eq. by destruct (decide (q_keyID = "")). }
  rewrite Henc, (Encrypt_wireToken g s keyID src key) by done.
  eexists _, _. split; [reflexivity|]. split; [rewrite length_drop; lia|].
  unfold decryptField. rewrite Hexp. cbn [andb negb].
  rewrite decide_True by done. unfold decryptString.
  rewrite bool_decide_eq_false_2 by apply wireToken_nonempty.
  rewrite wireToken_Contains. cbn [negb andb].
  destruct g_ok as [Hvalid _].
  destruct (Hvalid _ _ key_registered) as (_ & Hlen & Hcipher).
  rewrite Decrypt_sealed; [done | by apply Contains_false_Index | done | |].
  - rewrite Hcipher. by apply NewGCM_correct.
  - rewrite length_take. lia.
Qed.

Lemma fields_roundtrip (recurse : value -> value * result unit)
    (fields : list (StructField * value)) (src : entropy) :
  flatFields fields ->
  NonceSize (cipher key) * length fields <= length src ->
  exists fields' src',
    forEachWith (encryptField g q_keyID true) fields src = (fields', Ok tt, src')
    /\ forEach (decryptField g recurse true) fields' = (fields, Ok tt).
Proof using NewGCM_correct g_ok keyID_eq key_registered key_plain.
  intros Hflat. revert src. induction Hflat as [|f fields Hf _ IH]; intros src Hsrc.
  - by exists [], src.
  - cbn [length] in Hsrc.
    destruct (field_roundtrip recurse f src Hf ltac:(nia))
      as (f' & src1 & Hef & Hlen & Hdf).
    destruct (IH src1 ltac:(nia)) as (fields' & src2 & He & Hd).
    exists (f' :: fields'), src2. cbn [forEachWith forEach].
    by rewrite Hef, He, Hdf, Hd.
Qed.

End RoundTrip.

(** X10: writing then reading gives the model back.  For a registry built
    by [New], a model that is a pointer to a struct without nested data
    under its untagged fields, and a key (the query's, or the default one)
    that is registered and whose identifier contains no ['|'],
    [encryptModel] succeeds, given a nonce's worth of entropy per field,
    and [DecryptRecursive] turns what it wrote back into the original
    model. *)
Theorem encryptModel_DecryptRecursive_roundtrip (NewGCM : list byte -> AEAD)
    (config : Config) (g : GovaultDB) (q_keyID : string) (key : Key)
    (fields : list (StructField * value)) (src : entropy) :
  (forall kb, length kb = 32 -> AEAD_correct (NewGCM kb)) ->
  New NewGCM config = Ok g ->
  let id := if decide (q_keyID = "") then defaultKey g else q_keyID in
  keys g !! id = Some key ->
  Strings.Contains id "|" = false ->
  flatFields fields ->
  NonceSize (cipher key) * length fields <= length src ->
  exists written src',
    encryptModel g q_keyID (Some (VPtr (Some (VStruct fields)))) src
    = (Some (VPtr (Some (VStruct written))), Ok tt, src')
    /\ DecryptRecursive g (Some (VPtr (Some (VStruct written))))
       = (Some (VPtr (Some (VStruct fields))), Ok tt).
Proof.
  intros Hgcm Hnew id Hkey Hid Hflat Hsrc.
  assert (Hid' : targetKeyID g (if decide (q_keyID = "") then [] else [q_keyID])
                 = id).
  { unfold id. destruct (decide (q_keyID = "")) as [|Hq]; [done|].
    cbn. by rewrite decide_False. }
  destruct (fields_roundtrip NewGCM Hgcm g q_keyID key _ eq_refl
              (New_registry_ok NewGCM config g Hnew)
              ltac:(by rewrite Hid') ltac:(by rewrite Hid')
              (decryptValue g true) fields src Hflat Hsrc)
    as (written & src' & He & Hd).
  exists written, src'. rewrite encryptModel_struct, He. split; [done|].
  cbn [DecryptRecursive]. by rewrite decryptValue_struct, Hd.
Qed.

Lemma encryptModel_DecryptRecursive_roundtrip_witness :
  exists written src',
    encryptModel Sample.g12 "1"
      (Sample.ptrTo (Sample.TestUser 1 "n" "a@x.com" "" "x|y"))
      (Sample.noise ++ Sample.noise)%list
    = (Some (VPtr (Some (VStruct written))), Ok tt, src')
    /\ DecryptRecursive Sample.g12 (Some (VPtr (Some (VStruct written))))
       = (Sample.ptrTo (Sample.TestUser 1 "n" "a@x.com" "" "x|y"), Ok tt).
Proof.
  apply (encryptModel_DecryptRecursive_roundtrip Sample.toyGCM Sample.config12
           Sample.g12 "1" (Sample.key "1" Sample.K1)).
  - apply toyGCM_correct.
  - vm_compute; reflexivity.
  - vm_compute; reflexivity.
  - vm_compute; reflexivity.
  - repeat (constructor; [first [left; reflexivity | right; reflexivity]|]).
    constructor.
  - vm_compute; lia.
Defined.

(** X11: on a pointer to a flat struct, or to a slice of flat structs and
    of pointers to them, the first adapter's [decryptValue] and
    [DecryptRecursive] do the same. *)
Theorem decryptValue_agrees_with_DecryptRecursive (g : GovaultDB) :
  (forall fields,
      flatFields fields ->
      BunSelectQuery.decryptValue g (Some (VPtr (Some (VStruct fields))))
      = DecryptRecursive g (Some (VPtr (Some (VStruct fields)))))
  /\ (forall elems,
        Forall flatElem elems ->
        BunSelectQuery.decryptValue g (Some (VPtr (Some (VSlice elems))))
        = DecryptRecursive g (Some (VPtr (Some (VSlice elems))))).
Proof.
  assert (Hfields : forall fields, flatFields fields ->
            forEach (BunSelectQuery.decryptModelField g true) fields
            = forEach (decryptField g (decryptValue g true) true) fields).
  { intros fields Hflat. apply forEach_ext.
    eapply Forall_impl; [exact Hflat|]. intros [ft fv] Hf. cbn [fst snd] in Hf.
    unfold BunSelectQuery.decryptModelField, decryptField.
    destruct (negb (true && exported ft)); [done|]. case_decide; [done|].
    destruct Hf as [? | Hs]; [done|]. by destruct fv as [| | [|] | |]. }
  assert (Hstruct : forall fields, flatFields fields ->
            BunSelectQuery.decryptStruct g true (VStruct fields)
            = decryptValue g true (VStruct fields)).
  { intros fields Hflat. cbn [BunSelectQuery.decryptStruct].
    by rewrite decryptValue_struct, Hfields. }
  split.
  - intros fields Hflat.
    cbn [BunSelectQuery.decryptValue BunSelectQuery.decryptModel DecryptRecursive].
    by rewrite Hstruct.
  - intros elems Hflat. cbn [BunSelectQuery.decryptValue DecryptRecursive].
    rewrite decryptValue_slice.
    rewrite (forEach_ext (BunSelectQuery.decryptElem g)
               (decryptElem (decryptValue g true)));
      [by destruct (forEach _ elems)|].
    eapply Forall_impl; [exact Hflat|]. intros e He.
    destruct e as [| | [[| | | |fields]|] | |fields];
      cbn [BunSelectQuery.decryptElem decryptElem flatElem flatTarget] in *;
      try done.
    + by rewrite Hstruct.
    + by rewrite Hstruct.
Qed.

Lemma decryptValue_agrees_with_DecryptRecursive_witness :
  BunSelectQuery.decryptValue Sample.g12
    (Sample.ptrTo (Sample.TestUser 1 "n" Sample.token2 "" ""))
  = DecryptRecursive Sample.g12
      (Sample.ptrTo (Sample.TestUser 1 "n" Sample.token2 "" "")).
Proof.
  destruct (decryptValue_agrees_with_DecryptRecursive Sample.g12) as [H _].
  apply H.
  repeat (constructor; [first [left; reflexivity | right; reflexivity]|]).
  constructor.
Defined.


(** ** The encryptor *)

Section EncryptorFacts.

Variable NewGCM : list byte -> AEAD.

Lemma Encryptor_initKeys_lookup (entries : list (string * list byte))
    (acc ks : gmap string Encryptor.EncryptionKey) :
  Encryptor.initKeys NewGCM entries acc = Encryptor.Done ks ->
  (forall id k,
      ks !! id = Some k ->
      acc !! id = Some k
      \/ (length (Encryptor.Key k) = 32 /\ (id, Encryptor.Key k) ∈ entries
          /\ k = {| Encryptor.ID := id; Encryptor.Key := Encryptor.Key k;
                    Encryptor.cipher := NewGCM (Encryptor.Key k) |}))
  /\ (forall id, is_Some (ks !! id) <-> is_Some (acc !! id) \/ id ∈ entries.*1).
Proof.
  revert acc. induction entries as [|[keyID keyBytes] rest IH]; intros acc.
  - intros [= <-]. split; [auto|]. intros id. cbn. rewrite elem_of_nil. tauto.
  - cbn [Encryptor.initKeys]. unfold Encryptor.newEncryptionKey.
    case_decide as Hlen; [|discriminate]. intros Hks.
    destruct (IH _ Hks) as [Hlook Hreg]. split.
    + intros id k Hk. destruct (Hlook _ _ Hk) as [Hacc | (H32 & Hin & Hk')].
      * destruct (decide (keyID = id)) as [<- | Hne].
        -- rewrite lookup_insert_eq in Hacc. injection Hacc as <-.
           right. cbn. split; [done|]. split; [left | done].
        -- rewrite lookup_insert_ne in Hacc by done. by left.
      * right. split; [done|]. split; [by right | done].
    + intros id. rewrite Hreg. cbn. rewrite elem_of_cons.
      destruct (decide (keyID = id)) as [<- | Hne].
      * rewrite lookup_insert_eq. split; [auto|]. intros _. left. by eexists.
      * rewrite lookup_insert_ne by done. split; intros [?|Hor]; auto.
        destruct Hor as [?|?]; [congruence | auto].
Qed.

Lemma Encryptor_initKeys_outcome (entries : list (string * list byte))
    (acc : gmap string Encryptor.EncryptionKey) :
  match Encryptor.initKeys NewGCM entries acc with
  | Encryptor.Done _ => Forall (fun e => length e.2 = 32) entries
  | Encryptor.Failed e =>
      exists id kb, (id, kb) ∈ entries /\ length kb <> 32
                    /\ e = Encryptor.InitKey id Encryptor.KeyLength
  | Encryptor.Panicked _ => False
  end.
Proof.
  revert acc. induction entries as [|[keyID keyBytes] rest IH]; intros acc.
  - cbn. constructor.
  - cbn [Encryptor.initKeys]. unfold Encryptor.newEncryptionKey.
    case_decide as Hlen.
    + match goal with |- context [Encryptor.initKeys _ rest ?a] =>
        specialize (IH a); destruct (Encryptor.initKeys NewGCM rest a)
          as [ks|e|m] end; [| |done].
      * by constructor.
      * destruct IH as (id & kb & Hin & Hne & ->). exists id, kb.
        split; [by right | done].
    + exists keyID, keyBytes. split; [left | done].
Qed.

End EncryptorFacts.

(** What [NewWithKeys] returns. *)
Lemma NewWithKeys_Done (NewGCM : list byte -> AEAD)
    (keysMap : gmap string (list byte)) (activeKeyID : string)
    (pools : list Encryptor.Pool) (e : Encryptor.Encryptor) :
  Encryptor.NewWithKeys NewGCM keysMap activeKeyID pools = Encryptor.Done e ->
  Encryptor.pools e = pools
  /\ Encryptor.activeKeyID e = activeKeyID
  /\ (forall id,
        Encryptor.keys e !! id =
          (fun kb => {| Encryptor.ID := id; Encryptor.Key := kb;
                        Encryptor.cipher := NewGCM kb |})
            <$> keysMap !! id)
  /\ Encryptor.activeKey e = Encryptor.keys e !! activeKeyID
  /\ encryptor_ok NewGCM e.
Proof.
  unfold Encryptor.NewWithKeys.
  case_decide as Hp; [discriminate|]. case_decide as Hs; [discriminate|].
  destruct (keysMap !! activeKeyID) as [kb0|] eqn:Ha; [|discriminate].
  destruct (Encryptor.initKeys NewGCM _ ∅) as [ks| |] eqn:Hks; [|discriminate..].
  intros [= <-]. cbn.
  destruct (Encryptor_initKeys_lookup NewGCM _ _ _ Hks) as [Hlook Hreg].
  assert (Hkeys : forall id,
            ks !! id =
              (fun kb => {| Encryptor.ID := id; Encryptor.Key := kb;
                            Encryptor.cipher := NewGCM kb |})
                <$> keysMap !! id).
  { intros id. destruct (ks !! id) as [k|] eqn:Hk.
    - destruct (Hlook _ _ Hk) as [He | (_ & Hin & Hk')];
        [by rewrite lookup_empty in He|].
      apply elem_of_map_to_list in Hin. rewrite Hin. cbn. by f_equal.
    - destruct (keysMap !! id) as [kb|] eqn:Hkb; [|done].
      assert (His : is_Some (ks !! id)).
      { apply Hreg. right. apply list_elem_of_fmap. exists (id, kb).
        split; [done|]. by apply elem_of_map_to_list. }
      rewrite Hk in His. by destruct His. }
  split; [done|]. split; [done|]. split; [exact Hkeys|]. split; [done|].
  split; [|split]; cbn.
  - intros id k Hk.
    destruct (Hlook _ _ Hk) as [He | (H32 & _ & ->)];
      [by rewrite lookup_empty in He | done].
  - done.
  - rewrite Hkeys, Ha. by eexists.
Qed.

(** X12: [NewWithKeys] returns an encryptor exactly when it is given a
    pool, an active identifier that names one of the keys, and keys of 32
    bytes only.  The encryptor then holds, under each given identifier and
    under no other, the key made of that identifier, the given bytes and
    the cipher built from them, and its active key is the one registered
    under the active identifier. *)
Theorem NewWithKeys_spec (NewGCM : list byte -> AEAD)
    (keysMap : gmap string (list byte)) (activeKeyID : string)
    (pools : list Encryptor.Pool) :
  ((exists e, Encryptor.NewWithKeys NewGCM keysMap activeKeyID pools
              = Encryptor.Done e)
   <-> pools <> [] /\ is_Some (keysMap !! activeKeyID)
       /\ forall id kb, keysMap !! id = Some kb -> length kb = 32)
  /\ (forall e,
        Encryptor.NewWithKeys NewGCM keysMap activeKeyID pools = Encryptor.Done e ->
        Encryptor.pools e = pools
        /\ Encryptor.activeKeyID e = activeKeyID
        /\ (forall id,
              Encryptor.keys e !! id =
                (fun kb => {| Encryptor.ID := id; Encryptor.Key := kb;
                              Encryptor.cipher := NewGCM kb |})
                  <$> keysMap !! id)
        /\ Encryptor.activeKey e = Encryptor.keys e !! activeKeyID
        /\ encryptor_ok NewGCM e).
Proof.
  pose proof (Encryptor_initKeys_outcome NewGCM (map_to_list keysMap) ∅) as Hloop.
  split; [|apply NewWithKeys_Done].
  unfold Encryptor.NewWithKeys. split.
  - intros [e He]. case_decide as Hp; [discriminate|].
    case_decide as Hs; [discriminate|].
    destruct (keysMap !! activeKeyID) eqn:Ha; [|discriminate].
    destruct (Encryptor.initKeys NewGCM _ ∅) as [ks| |]; [|discriminate..].
    split; [by destruct pools|]. split; [by eexists|].
    intros id kb Hkb. rewrite Forall_forall in Hloop.
    apply (Hloop (id, kb)). by apply elem_of_map_to_list.
  - intros (Hp & [kb0 Ha] & Hall).
    rewrite decide_False by (by destruct pools).
    rewrite decide_False.
    2:{ intros Hs. apply map_size_empty_iff in Hs. by rewrite Hs in Ha. }
    rewrite Ha.
    destruct (Encryptor.initKeys NewGCM _ ∅) as [ks|e|m]; [by eexists| |done].
    destruct Hloop as (id & kb & Hin & Hne & _).
    apply elem_of_map_to_list in Hin. by specialize (Hall _ _ Hin).
Qed.

Lemma NewWithKeys_spec_witness :
  Encryptor.NewWithKeys Sample.toyGCM Sample.keysMap12 "2" ["bun"]
  = Encryptor.Done Sample.encryptor12
  /\ encryptor_ok Sample.toyGCM Sample.encryptor12.
Proof.
  assert (H : Encryptor.NewWithKeys Sample.toyGCM Sample.keysMap12 "2" ["bun"]
              = Encryptor.Done Sample.encryptor12) by (vm_compute; reflexivity).
  split; [exact H|].
  destruct (NewWithKeys_spec Sample.toyGCM Sample.keysMap12 "2" ["bun"])
    as [_ Hok].
  apply (Hok Sample.encryptor12 H).
Defined.


Lemma Encryptor_Encrypt_token (e : Encryptor.Encryptor) (plaintext : string)
    (src : entropy) (key : Encryptor.EncryptionKey) :
  plaintext <> "" ->
  Encryptor.activeKey e = Some key ->
  NonceSize (Encryptor.cipher key) <= length src ->
  let nonce := take (NonceSize (Encryptor.cipher key)) src in
  Encryptor.Encrypt e plaintext src =
    (Encryptor.Done
       (wireToken (Encryptor.activeKeyID e) nonce
          (rawSeal (Encryptor.cipher key) nonce (list_byte_of_string plaintext))),
     drop (NonceSize (Encryptor.cipher key)) src).
Proof.
  intros Hp Hkey Hsrc nonce. unfold Encryptor.Encrypt.
  rewrite decide_False by done. rewrite Hkey.
  unfold rand_Read. rewrite decide_True by done.
  rewrite decide_True; [reflexivity|]. rewrite length_take. lia.
Qed.

Lemma Encryptor_Decrypt_sealed (e : Encryptor.Encryptor) (id : string)
    (key : Encryptor.EncryptionKey) (nonce : list byte) (plaintext : string) :
  Strings.Index id "|" = None ->
  Encryptor.keys e !! id = Some key ->
  AEAD_correct (Encryptor.cipher key) ->
  length nonce = NonceSize (Encryptor.cipher key) ->
  Encryptor.Decrypt e
    (wireToken id nonce
       (rawSeal (Encryptor.cipher key) nonce (list_byte_of_string plaintext)))
  = Encryptor.Done plaintext.
Proof.
  intros Hid Hkey Hc Hn. unfold Encryptor.Decrypt.
  rewrite decide_False by apply wireToken_nonempty.
  rewrite wireToken_SplitN by done. rewrite Hkey.
  rewrite !DecodeString_EncodeToString. rewrite decide_True by done.
  rewrite Hc by done. by rewrite string_of_list_byte_of_string.
Qed.

(** X13: an encryptor built by [NewWithKeys] whose active identifier
    contains no ['|'] decrypts what it encrypts: [Encrypt] returns a token,
    given the nonce's worth of entropy, and [Decrypt] of it returns the
    plaintext. *)
Theorem Encryptor_Decrypt_Encrypt (NewGCM : list byte -> AEAD)
    (keysMap : gmap string (list byte)) (activeKeyID : string)
    (pools : list Encryptor.Pool) (e : Encryptor.Encryptor)
    (plaintext : string) (src : entropy) :
  (forall kb, length kb = 32 -> AEAD_correct (NewGCM kb)) ->
  Encryptor.NewWithKeys NewGCM keysMap activeKeyID pools = Encryptor.Done e ->
  Strings.Contains activeKeyID "|" = false ->
  (forall kb, NonceSize (NewGCM kb) <= length src) ->
  exists token src',
    Encryptor.Encrypt e plaintext src = (Encryptor.Done token, src')
    /\ Encryptor.Decrypt e token = Encryptor.Done plaintext.
Proof.
  intros Hgcm Hnew Hid Hsrc.
  destruct (NewWithKeys_Done NewGCM keysMap activeKeyID pools e Hnew)
    as (_ & Ha & _ & _ & Hvalid & Hactive & [key Hkey]).
  destruct (decide (plaintext = "")) as [-> | Hp]; [by exists "", src|].
  rewrite Hkey in Hactive. symmetry in Hactive.
  destruct (Hvalid _ _ Hactive) as (_ & Hlen & Hcipher).
  eexists _, _. split.
  - apply (Encryptor_Encrypt_token e plaintext src key); [done..|].
    rewrite Hcipher. apply Hsrc.
  - apply Encryptor_Decrypt_sealed.
    + rewrite Ha. by apply Contains_false_Index.
    + done.
    + rewrite Hcipher. by apply Hgcm.
    + rewrite length_take. pose proof (Hsrc (Encryptor.Key key)) as H.
      rewrite <- Hcipher in H. lia.
Qed.

Lemma Encryptor_Decrypt_Encrypt_witness :
  exists token src',
    Encryptor.Encrypt Sample.encryptor12 "a@x.com" Sample.noise
    = (Encryptor.Done token, src')
    /\ Encryptor.Decrypt Sample.encryptor12 token = Encryptor.Done "a@x.com".
Proof.
  apply (Encryptor_Decrypt_Encrypt Sample.toyGCM Sample.keysMap12 "2" ["bun"]).
  - apply toyGCM_correct.
  - vm_compute; reflexivity.
  - vm_compute; reflexivity.
  - intros kb. vm_compute. lia.
Defined.

(** X14: [ReEncrypt] moves a token to the active key.  For an encryptor
    built by [NewWithKeys], a token sealed under any registered key and a
    non-empty plaintext, it returns a token that carries the active
    identifier and decrypts to the same plaintext; the identifiers must not
    contain ['|']. *)
Theorem ReEncrypt_migrates (NewGCM : list byte -> AEAD)
    (keysMap : gmap string (list byte)) (activeKeyID : string)
    (pools : list Encryptor.Pool) (e : Encryptor.Encryptor)
    (id : string) (key : Encryptor.EncryptionKey) (nonce : list byte)
    (plaintext : string) (src : entropy) :
  (forall kb, length kb = 32 -> AEAD_correct (NewGCM kb)) ->
  Encryptor.NewWithKeys NewGCM keysMap activeKeyID pools = Encryptor.Done e ->
  Strings.Contains activeKeyID "|" = false ->
  Strings.Contains id "|" = false ->
  Encryptor.keys e !! id = Some key ->
  length nonce = NonceSize (Encryptor.cipher key) ->
  plaintext <> "" ->
  (forall kb, NonceSize (NewGCM kb) <= length src) ->
  exists token src',
    Encryptor.ReEncrypt e
      (wireToken id nonce
         (rawSeal (Encryptor.cipher key) nonce (list_byte_of_string plaintext)))
      src
    = (Encryptor.Done token, src')
    /\ GetKeyIDFromEncryptedData token = Ok activeKeyID
    /\ Encryptor.Decrypt e token = Encryptor.Done plaintext.
Proof.
  intros Hgcm Hnew Hact Hid Hkey Hn Hp Hsrc.
  destruct (NewWithKeys_Done NewGCM keysMap activeKeyID pools e Hnew)
    as (_ & Ha & _ & _ & Hvalid & Hactive & [akey Hakey]).
  rewrite Hakey in Hactive. symmetry in Hactive.
  destruct (Hvalid _ _ Hactive) as (_ & _ & Hacipher).
  destruct (Hvalid _ _ Hkey) as (_ & Hlen & Hcipher).
  unfold Encryptor.ReEncrypt.
  rewrite decide_False by apply wireToken_nonempty.
  rewrite Encryptor_Decrypt_sealed;
    [| by apply Contains_false_Index | done | rewrite Hcipher; by apply Hgcm | done].
  assert (Hroom : NonceSize (Encryptor.cipher akey) <= length src)
    by (rewrite Hacipher; apply Hsrc).
  rewrite (Encryptor_Encrypt_token e plaintext src akey) by done.
  eexists _, _. split; [reflexivity|]. rewrite Ha. split.
  - by apply GetKeyID_wireToken, Contains_false_Index.
  - apply Encryptor_Decrypt_sealed.
    + by apply Contains_false_Index.
    + by rewrite <- Ha.
    + rewrite Hacipher. apply Hgcm. by destruct (Hvalid _ _ Hactive) as (_ & ? & _).
    + rewrite length_take. lia.
Qed.

Lemma ReEncrypt_migrates_witness :
  exists token src',
    Encryptor.ReEncrypt Sample.encryptor12 Sample.token1 Sample.noise
    = (Encryptor.Done token, src')
    /\ GetKeyIDFromEncryptedData token = Ok "2"
    /\ Encryptor.Decrypt Sample.encryptor12 token = Encryptor.Done "a@x.com".
Proof.
  apply (ReEncrypt_migrates Sample.toyGCM Sample.keysMap12 "2" ["bun"]
           Sample.encryptor12 "1" (Sample.ekey "1" Sample.K1) Sample.nonce0
           "a@x.com" Sample.noise).
  - apply toyGCM_correct.
  - vm_compute; reflexivity.
  - vm_compute; reflexivity.
  - vm_compute; reflexivity.
  - vm_compute; reflexivity.
  - vm_compute; reflexivity.
  - discriminate.
  - intros kb. vm_compute. lia.
Defined.


Section EnvironmentFacts.

Variable NewGCM : list byte -> AEAD.

(** One turn of the loop, by what [envKey] makes of the entry. *)
Lemma loadKeys_cons (env : string) (rest : list string)
    (keys : gmap string Encryptor.EncryptionKey) (keyNumbers : list Z) :
  Encryptor.loadKeys NewGCM (env :: rest) keys keyNumbers =
    match envKey env with
    | None => Encryptor.loadKeys NewGCM rest keys keyNumbers
    | Some (num, envValue) =>
        let keyBytes := list_byte_of_string envValue in
        if decide (length keyBytes <> 32) then
          Encryptor.Failed (Encryptor.EnvKeyLength num (length keyBytes))
        else
          Encryptor.loadKeys NewGCM rest
            (<[Strconv.Itoa num :=
                 {| Encryptor.ID := Strconv.Itoa num; Encryptor.Key := keyBytes;
                    Encryptor.cipher := NewGCM keyBytes |}]> keys)
            (keyNumbers ++ [num])%list
    end.
Proof.
  cbn [Encryptor.loadKeys]. unfold envKey.
  destruct (Strings.HasPrefix env "ENCRYPTION_KEY_"); [|done].
  destruct (Strings.SplitN env "=" 2) as [|envKey [|envValue [|? ?]]]; try done.
  destruct (Strconv.Atoi _) as [num|]; [|done]. cbv zeta.
  case_decide as Hlen; [done|]. unfold Encryptor.newEncryptionKey.
  rewrite decide_True; [done|].
  destruct (decide (length (list_byte_of_string envValue) = 32)); [done|].
  by destruct Hlen.
Qed.

Lemma loadKeys_outcome (environ : list string)
    (keys : gmap string Encryptor.EncryptionKey) (keyNumbers : list Z) :
  match Encryptor.loadKeys NewGCM environ keys keyNumbers with
  | Encryptor.Done (keys', keyNumbers') =>
      (forall n v, accepted environ n v -> length (list_byte_of_string v) = 32)
      /\ (forall n, n ∈ keyNumbers' <->
                    n ∈ keyNumbers \/ exists v, accepted environ n v)
      /\ (forall id, is_Some (keys' !! id) <->
                     is_Some (keys !! id)
                     \/ exists n v, accepted environ n v /\ id = Strconv.Itoa n)
      /\ (forall id k, keys' !! id = Some k ->
                       keys !! id = Some k
                       \/ (Encryptor.ID k = id /\ length (Encryptor.Key k) = 32
                           /\ Encryptor.cipher k = NewGCM (Encryptor.Key k)))
  | Encryptor.Failed e =>
      exists n v, accepted environ n v
                  /\ length (list_byte_of_string v) <> 32
                  /\ e = Encryptor.EnvKeyLength n (length (list_byte_of_string v))
  | Encryptor.Panicked _ => False
  end.
Proof.
  revert keys keyNumbers. induction environ as [|env rest IH]; intros keys nums.
  - cbn. unfold accepted. repeat split; try (intros; by left).
    + intros n v (env & Hin & _). by apply elem_of_nil in Hin.
    + intros [? | (v & env & Hin & _)]; [done | by apply elem_of_nil in Hin].
    + intros [? | (n & v & (env & Hin & _) & _)];
        [done | by apply elem_of_nil in Hin].
  - rewrite loadKeys_cons.
    assert (Hacc : forall n v,
              accepted (env :: rest) n v
              <-> envKey env = Some (n, v) \/ accepted rest n v).
    { intros n v. unfold accepted. split.
      - intros (env' & Hin & He). apply elem_of_cons in Hin as [-> | Hin];
          [by left | right; by exists env'].
      - intros [He | (env' & Hin & He)];
          [exists env; split; [left | done] | exists env'; split; [by right | done]]. }
    destruct (envKey env) as [[num v0]|] eqn:Henv.
    + cbv zeta. case_decide as Hlen.
      { exists num, v0. split; [apply Hacc; by left | done]. }
      match goal with |- context [Encryptor.loadKeys _ rest ?ks ?ns] =>
        specialize (IH ks ns); destruct (Encryptor.loadKeys NewGCM rest ks ns)
          as [[keys' nums']|e|m] end; [| |done].
      * destruct IH as (H32 & Hnums & Hreg & Hvalid).
        assert (Hlen' : length (list_byte_of_string v0) = 32).
        { destruct (decide (length (list_byte_of_string v0) = 32)); [done|].
          by destruct Hlen. }
        split; [|split; [|split]].
        -- intros n v Ha. apply (proj1 (Hacc _ _)) in Ha as [[= <- <-] | Ha];
             [done | by apply (H32 n)].
        -- intros n. rewrite Hnums, elem_of_app, list_elem_of_singleton. split.
           ++ intros [[? | ->] | [v Ha]]; [by left | |].
              ** right. exists v0. apply Hacc. by left.
              ** right. exists v. apply Hacc. by right.
           ++ intros [? | [v Ha]]; [left; by left|].
              apply (proj1 (Hacc _ _)) in Ha as [[= <- <-] | Ha];
                [left; by right | right; by exists v].
        -- intros id. rewrite Hreg. split.
           ++ intros [His | (n & v & Ha & ->)].
              ** destruct (decide (Strconv.Itoa num = id)) as [<- | Hne].
                 --- right. exists num, v0. split; [apply Hacc; by left | done].
                 --- rewrite lookup_insert_ne in His by done. by left.
              ** right. exists n, v. split; [apply Hacc; by right | done].
           ++ intros [His | (n & v & Ha & ->)].
              ** left. destruct (decide (Strconv.Itoa num = id)) as [<- | Hne].
                 --- rewrite lookup_insert_eq. by eexists.
                 --- by rewrite lookup_insert_ne.
              ** apply (proj1 (Hacc _ _)) in Ha as [[= <- <-] | Ha].
                 --- left. rewrite lookup_insert_eq. by eexists.
                 --- right. by exists n, v.
        -- intros id k Hk. destruct (Hvalid id k Hk) as [Hins | ?]; [|by right].
           destruct (decide (Strconv.Itoa num = id)) as [<- | Hne].
           ++ rewrite lookup_insert_eq in Hins. injection Hins as <-. by right.
           ++ rewrite lookup_insert_ne in Hins by done. by left.
      * destruct IH as (n & v & Ha & Hne & ->). exists n, v.
        split; [apply Hacc; by right | done].
    + specialize (IH keys nums).
      destruct (Encryptor.loadKeys NewGCM rest keys nums)
        as [[keys' nums']|e|m]; [| |done].
      * destruct IH as (H32 & Hnums & Hreg & Hvalid).
        split; [|split; [|split]]; try done.
        -- intros n v Ha. apply (proj1 (Hacc _ _)) in Ha as [[=] | Ha]. by apply (H32 n).
        -- intros n. rewrite Hnums. split.
           ++ intros [? | [v Ha]]; [by left | right; exists v; apply Hacc; by right].
           ++ intros [? | [v Ha]]; [by left|].
              apply (proj1 (Hacc _ _)) in Ha as [[=] | Ha]. right. by exists v.
        -- intros id. rewrite Hreg. split.
           ++ intros [? | (n & v & Ha & ->)]; [by left|].
              right. exists n, v. split; [apply Hacc; by right | done].
           ++ intros [? | (n & v & Ha & ->)]; [by left|].
              apply (proj1 (Hacc _ _)) in Ha as [[=] | Ha]. right. by exists n, v.
      * destruct IH as (n & v & Ha & Hne & ->). exists n, v.
        split; [apply Hacc; by right | done].
Qed.

End EnvironmentFacts.

(** The last element of the sorted list is the largest. *)
Lemma last_sorted_max (l : list Z) :
  match last (merge_sort Z.le l) with
  | Some m => m ∈ l /\ forall n, n ∈ l -> (n <= m)%Z
  | None => l = []
  end.
Proof.
  pose proof (merge_sort_Permutation Z.le l) as Hperm.
  pose proof (StronglySorted_merge_sort Z.le l) as Hsorted.
  destruct (last (merge_sort Z.le l)) as [m|] eqn:Hlast.
  - apply last_Some in Hlast as [l' Hl]. rewrite Hl in Hperm, Hsorted. split.
    + rewrite <- Hperm. apply elem_of_app. right. by left.
    + intros n Hn. rewrite <- Hperm in Hn.
      apply elem_of_app in Hn as [Hn | Hn%list_elem_of_singleton]; [|lia].
      apply (StronglySorted_app_1_elem_of Z.le l' [m] n m Hsorted Hn). by left.
  - apply last_None in Hlast. rewrite Hlast in Hperm.
    by apply Permutation_nil_l in Hperm.
Qed.


(** What [loadKeysFromEnv] returns. *)
Lemma loadKeysFromEnv_Done (NewGCM : list byte -> AEAD) (environ : list string)
    (keys : gmap string Encryptor.EncryptionKey) (active : string) :
  Encryptor.loadKeysFromEnv NewGCM environ = Encryptor.Done (keys, active) ->
  (exists m v,
      accepted environ m v /\ active = Strconv.Itoa m
      /\ forall n v', accepted environ n v' -> (n <= m)%Z)
  /\ is_Some (keys !! active)
  /\ (forall id, is_Some (keys !! id) <->
                 exists n v, accepted environ n v /\ id = Strconv.Itoa n)
  /\ (forall id k,
        keys !! id = Some k ->
        Encryptor.ID k = id /\ length (Encryptor.Key k) = 32
        /\ Encryptor.cipher k = NewGCM (Encryptor.Key k)).
Proof.
  unfold Encryptor.loadKeysFromEnv.
  pose proof (loadKeys_outcome NewGCM environ ∅ []) as Hloop.
  destruct (Encryptor.loadKeys NewGCM environ ∅ []) as [[ks nums]|e|m];
    [|discriminate..].
  destruct Hloop as (_ & Hnums & Hreg & Hvalid).
  case_decide; [discriminate|].
  pose proof (last_sorted_max nums) as Hmax.
  destruct (last (merge_sort Z.le nums)) as [m|]; [|discriminate].
  intros [= <- <-]. destruct Hmax as [Hin Hle].
  apply Hnums in Hin as [Hin | [v Hv]]; [by apply elem_of_nil in Hin|].
  assert (Hids : forall id, is_Some (ks !! id) <->
                   exists n v, accepted environ n v /\ id = Strconv.Itoa n).
  { intros id. rewrite Hreg, lookup_empty. split; [|by right].
    by intros [[? [=]] | ?]. }
  split; [|split; [|split]].
  - exists m, v. split; [done|]. split; [done|].
    intros n v' Ha. apply Hle, Hnums. right. by exists v'.
  - apply Hids. by exists m, v.
  - exact Hids.
  - intros id k Hk. destruct (Hvalid id k Hk) as [He | ?]; [|done].
    by rewrite lookup_empty in He.
Qed.

(** X15: [loadKeysFromEnv] takes the environment entries
    [ENCRYPTION_KEY_<number>=<value>] and passes over the others.  It
    succeeds exactly when there is such an entry and all of them have a
    value of 32 bytes.  The keys it returns are then registered under the
    decimal forms of these numbers and of nothing else, each with 32 bytes
    and the cipher built from them, and the active identifier is the
    decimal form of the largest number, which is registered. *)
Theorem loadKeysFromEnv_spec (NewGCM : list byte -> AEAD)
    (environ : list string) :
  ((exists r, Encryptor.loadKeysFromEnv NewGCM environ = Encryptor.Done r)
   <-> (exists n v, accepted environ n v)
       /\ forall n v, accepted environ n v ->
                      length (list_byte_of_string v) = 32)
  /\ (forall keys active,
        Encryptor.loadKeysFromEnv NewGCM environ = Encryptor.Done (keys, active) ->
        (exists m v,
            accepted environ m v /\ active = Strconv.Itoa m
            /\ forall n v', accepted environ n v' -> (n <= m)%Z)
        /\ is_Some (keys !! active)
        /\ (forall id, is_Some (keys !! id) <->
                       exists n v, accepted environ n v /\ id = Strconv.Itoa n)
        /\ (forall id k,
              keys !! id = Some k ->
              Encryptor.ID k = id /\ length (Encryptor.Key k) = 32
              /\ Encryptor.cipher k = NewGCM (Encryptor.Key k))).
Proof.
  split; [|apply loadKeysFromEnv_Done].
  unfold Encryptor.loadKeysFromEnv.
  pose proof (loadKeys_outcome NewGCM environ ∅ []) as Hloop.
  destruct (Encryptor.loadKeys NewGCM environ ∅ []) as [[ks nums]|e|m];
    [| |done].
  - destruct Hloop as (H32 & Hnums & Hreg & _).
    pose proof (last_sorted_max nums) as Hmax.
    case_decide as Hsize.
    + split; [by intros [? [=]]|]. intros [(n & v & Ha) _]. exfalso.
      apply map_size_empty_iff in Hsize. subst ks.
      destruct (proj2 (Hreg (Strconv.Itoa n))) as [? He];
        [right; by exists n, v | by rewrite lookup_empty in He].
    + destruct (last (merge_sort Z.le nums)) as [m|].
      * split; [|by eexists]. intros _. split; [|exact H32].
        destruct Hmax as [Hin _].
        apply Hnums in Hin as [Hin | [v Hv]]; [by apply elem_of_nil in Hin|].
        by exists m, v.
      * split; [by intros [? [=]]|]. intros [(n & v & Ha) _]. exfalso.
        subst nums. assert (Hn : n ∈ ([] : list Z))
          by (apply Hnums; right; by exists v).
        by apply elem_of_nil in Hn.
  - destruct Hloop as (n & v & Ha & Hne & _).
    split; [by intros [? [=]]|]. intros [_ H32]. by specialize (H32 n v Ha).
Qed.

Lemma loadKeysFromEnv_spec_witness :
  exists keys,
    Encryptor.loadKeysFromEnv Sample.toyGCM Sample.environ
    = Encryptor.Done (keys, "10")
    /\ is_Some (keys !! "10").
Proof.
  destruct (Encryptor.loadKeysFromEnv Sample.toyGCM Sample.environ)
    as [[keys active]|e|m] eqn:Hload; try (vm_compute in Hload; discriminate).
  destruct (loadKeysFromEnv_spec Sample.toyGCM Sample.environ) as [_ Hspec].
  destruct (Hspec keys active Hload) as (_ & Hactive & _).
  assert (Ha : active = "10") by (vm_compute in Hload; by injection Hload).
  subst active. by exists keys.
Defined.

(** X16: an encryptor that [New] builds from the environment has the
    invariant of [NewWithKeys]: its keys are the 32-byte keys of the
    environment and its active key is registered, under the largest key
    number.  [Encrypt] on it never panics. *)
Theorem Encryptor_New_spec (NewGCM : list byte -> AEAD)
    (pools : list Encryptor.Pool) (environ : list string)
    (e : Encryptor.Encryptor) :
  Encryptor.New NewGCM pools environ = Encryptor.Done e ->
  pools <> []
  /\ encryptor_ok NewGCM e
  /\ (exists m v,
         accepted environ m v /\ Encryptor.activeKeyID e = Strconv.Itoa m
         /\ forall n v', accepted environ n v' -> (n <= m)%Z)
  /\ forall plaintext src msg,
       (Encryptor.Encrypt e plaintext src).1 <> Encryptor.Panicked msg.
Proof.
  unfold Encryptor.New. case_decide as Hp; [discriminate|].
  destruct (Encryptor.loadKeysFromEnv NewGCM environ) as [[ks active]|?|?] eqn:Hload;
    [|discriminate..].
  case_decide; [discriminate|]. intros [= <-].
  destruct (loadKeysFromEnv_Done NewGCM environ ks active Hload)
    as (Hmax & [key Hkey] & _ & Hvalid).
  split; [by destruct pools|]. split; [|split; [exact Hmax|]].
  - split; [exact Hvalid|]. cbn. split; [done|]. rewrite Hkey. by eexists.
  - intros plaintext src msg. unfold Encryptor.Encrypt. cbn.
    case_decide; [done|]. rewrite Hkey. unfold rand_Read.
    case_decide as Hroom; [|done]. cbn.
    rewrite decide_True; [done|]. rewrite length_take. lia.
Qed.

Lemma Encryptor_New_spec_witness :
  exists e,
    Encryptor.New Sample.toyGCM ["bun"] Sample.environ = Encryptor.Done e
    /\ encryptor_ok Sample.toyGCM e.
Proof.
  destruct (Encryptor.New Sample.toyGCM ["bun"] Sample.environ)
    as [e|?|?] eqn:Hnew; try (vm_compute in Hnew; discriminate).
  exists e. split; [done|].
  by destruct (Encryptor_New_spec Sample.toyGCM ["bun"] Sample.environ e Hnew)
    as (_ & Hok & _).
Defined.


Lemma forEach_Forall2 {A : Type} (step : A -> A * result unit) (l l' : list A) :
  Forall2 (fun x x' => step x = (x', Ok tt)) l l' ->
  forEach step l = (l', Ok tt).
Proof.
  induction 1 as [|x x' l l' Hx _ IH]; cbn [forEach]; [done|]. by rewrite Hx, IH.
Qed.

(** X17: reading many rows is reading each row.  When [DecryptRecursive]
    turns each struct of a list into its plaintext form, it does so for
    the slice of these structs, for the slice of pointers to them, and
    the destination loop of [Scan] does so for the list of pointers to
    them. *)
Theorem DecryptRecursive_rows (g : GovaultDB)
    (rows plain : list (list (StructField * value))) :
  Forall2 (fun row orig =>
             DecryptRecursive g (Some (VPtr (Some (VStruct row))))
             = (Some (VPtr (Some (VStruct orig))), Ok tt)) rows plain ->
  DecryptRecursive g (Some (VPtr (Some (VSlice (VStruct <$> rows)))))
  = (Some (VPtr (Some (VSlice (VStruct <$> plain)))), Ok tt)
  /\ DecryptRecursive g
       (Some (VPtr (Some (VSlice ((fun row => VPtr (Some (VStruct row))) <$> rows)))))
     = (Some (VPtr (Some
          (VSlice ((fun row => VPtr (Some (VStruct row))) <$> plain)))), Ok tt)
  /\ decryptDest g ((fun row => Some (VPtr (Some (VStruct row)))) <$> rows)
     = ((fun row => Some (VPtr (Some (VStruct row)))) <$> plain, Ok tt).
Proof.
  intros Hrows.
  assert (Hrow : Forall2 (fun row orig =>
                            decryptValue g true (VStruct row)
                            = (VStruct orig, Ok tt)) rows plain).
  { eapply Forall2_impl; [exact Hrows|]. intros row orig. cbn [DecryptRecursive].
    destruct (decryptValue g true (VStruct row)) as [v r]. by intros [= -> ->]. }
  split; [|split].
  - cbn [DecryptRecursive]. rewrite decryptValue_slice.
    rewrite (forEach_Forall2 _ _ (VStruct <$> plain)); [done|].
    apply Forall2_fmap. eapply Forall2_impl; [exact Hrow|]. by intros row orig.
  - cbn [DecryptRecursive]. rewrite decryptValue_slice.
    rewrite (forEach_Forall2 _ _ ((fun row => VPtr (Some (VStruct row))) <$> plain));
      [done|].
    apply Forall2_fmap. eapply Forall2_impl; [exact Hrow|].
    intros row orig H. cbn [decryptElem]. by rewrite H.
  - unfold decryptDest. apply forEach_Forall2, Forall2_fmap.
    eapply Forall2_impl; [exact Hrows|]. by intros row orig.
Qed.

Lemma DecryptRecursive_rows_witness :
  DecryptRecursive Sample.g12
    (Some (VPtr (Some (VSlice
       [VStruct [(Sample.tagged "Email", VString Sample.token1)];
        VStruct [(Sample.tagged "Email", VString Sample.token2)]]))))
  = (Some (VPtr (Some (VSlice
       [VStruct [(Sample.tagged "Email", VString "a@x.com")];
        VStruct [(Sample.tagged "Email", VString "a@x.com")]]))), Ok tt).
Proof.
  apply (DecryptRecursive_rows Sample.g12
           [[(Sample.tagged "Email", VString Sample.token1)];
            [(Sample.tagged "Email", VString Sample.token2)]]
           [[(Sample.tagged "Email", VString "a@x.com")];
            [(Sample.tagged "Email", VString "a@x.com")]]).
  repeat constructor.
Defined.
